(** * pybigint: decimal big integers and the digit-swap product solver

    A shallow embedding of [src/bigint.py] (class [BigInt]) and of
    [src/examples/max_product/max_product.py], followed by the properties
    of the specification that were checked against them.

    - A [BigInt] object owns one field, the list [_digits], least
      significant digit first; the object is modelled by that list, and a
      method that mutates [self] returns the new list.
    - Python integers are unbounded, so a digit cell and every index is a
      [Z]; [%] and [//] by the positive constant 10 are the floor
      operations [Z.modulo] and [Z.div].
    - A computation returns, raises one of the exceptions of the sources, or
      runs out of the recursion budget the model gives to the two recursive
      functions ([add_at] and the brute-force search).  The budgets are
      proved sufficient; the interpreter's own recursion limit is not
      modelled.
    - [math.log10] and [rand.randint] are library calls: the constructor
      takes them as parameters. *)

From Stdlib Require Import ZArith Lia String Ascii DecimalString.
From stdpp Require Import base list.

Local Open Scope Z_scope.

(** ** Python primitives used by the two source files *)

Module Py.

(** The exception classes the sources raise (IndexError comes from list
    subscripting). *)
Inductive exn : Type :=
| NotImplementedError
| ValueError
| TypeError
| IndexError.

Inductive result (A : Type) : Type :=
| Ok (a : A)
| Raise (e : exn).
Arguments Ok {A} a.
Arguments Raise {A} e.

(** A computation either returns, raises, or (outer [None]) exhausts the
    recursion budget of the model.  Nothing in the repository catches an
    exception, so a raise aborts the whole computation and the store at
    that point is not kept. *)
Definition M (A : Type) : Type := option (result A).

Definition ret {A : Type} (a : A) : M A := Some (Ok a).

Definition raise {A : Type} (e : exn) : M A := Some (Raise e).

Definition bind {A B : Type} (m : M A) (k : A -> M B) : M B :=
  match m with
  | None => None
  | Some (Raise e) => Some (Raise e)
  | Some (Ok a) => k a
  end.

Notation "x <- m ;; k" := (bind m (fun x => k))
  (at level 100, m at next level, right associativity).

(** [for x in xs: s = body(x, s)] *)
Fixpoint for_in {S : Type} (xs : list Z) (body : Z -> S -> M S) (s : S) : M S :=
  match xs with
  | [] => ret s
  | x :: xs' => s' <- body x s;; for_in xs' body s'
  end.

(** [range(n)] *)
Definition range (n : Z) : list Z := seqZ 0 n.

(** [range(start, stop, -1)] *)
Definition range_down (start stop : Z) : list Z :=
  (fun k => start - k) <$> seqZ 0 (start - stop).

(** Position of subscript [i] in a list of [n] cells: a negative subscript
    counts from the end, anything outside [-n, n) is an IndexError. *)
Definition index (n : nat) (i : Z) : option nat :=
  if 0 <=? i then (if i <? Z.of_nat n then Some (Z.to_nat i) else None)
  else if - Z.of_nat n <=? i then Some (Z.to_nat (Z.of_nat n + i))
  else None.

(** [l[i]] *)
Definition getitem (l : list Z) (i : Z) : M Z :=
  match index (length l) i with
  | Some k => match l !! k with Some x => ret x | None => raise IndexError end
  | None => raise IndexError
  end.

(** [l[i] = x] *)
Definition setitem (l : list Z) (i : Z) (x : Z) : M (list Z) :=
  match index (length l) i with
  | Some k => ret (<[k:=x]> l)
  | None => raise IndexError
  end.

(** [f"{d}"] for an integer [d]: its decimal numeral, with a leading minus
    sign when negative. *)
Definition format_int (d : Z) : string := NilZero.string_of_int (Z.to_int d).

End Py.

Import Py.

(** ** class BigInt *)

Module BigInt.

(** The object is its digit store [_digits]. *)
Definition BigInt : Type := list Z.

Section Construction.

(** [int(math.log10(value))]: the integer part of the double-precision
    logarithm.  The floating-point library is outside the repository, so the
    constructor is parametrised by this function; the properties below say
    which facts about it they rely on. *)
Variable int_log10 : Z -> Z.

(** [rand.randint(lo, hi)] at iteration [i] of the constructor's loop. *)
Variable randint : Z -> Z -> Z -> Z.

(** [for _ in range(num_dc): self._digits.append(value % 10); value //= 10] *)
Fixpoint take_digits (n : nat) (digits : list Z) (value : Z) : list Z :=
  match n with
  | O => digits
  | S n' => take_digits n' (digits ++ [value mod 10]) (value / 10)
  end.

Definition __init__ (value digit_count : option Z) : M BigInt :=
  match value with
  | Some value =>
      if value <? 0 then raise NotImplementedError
      else if negb (value =? 0) then
        let val_dc := int_log10 value + 1 in
        let num_dc :=
          match digit_count with
          | None => val_dc
          | Some digit_count => Z.min val_dc digit_count
          end in
        ret (take_digits (Z.to_nat num_dc) [] value)
      else ret []
  | None =>
      match digit_count with
      | None => raise ValueError
      | Some digit_count =>
          for_in (range digit_count)
            (fun i digits =>
               ret (digits ++ [randint i (if i <? digit_count - 1 then 0 else 1) 9]))
            []
      end
  end.

End Construction.

(** [BigInt(digit_count=0)]: the loop over [range(0)] draws nothing (lemma
    [init_digit_count_0]). *)
Definition empty : BigInt := [].

Definition clone (self : BigInt) : BigInt :=
  fold_left (fun c digit => c ++ [digit]) self empty.

Definition __len__ (self : BigInt) : Z := Z.of_nat (length self).

(** [while idx >= len(self): self._digits.append(0)] runs
    [idx + 1 - len(self)] times when that is positive, never otherwise. *)
Definition grow (self : BigInt) (idx : Z) : BigInt :=
  self ++ replicate (Z.to_nat (idx + 1 - __len__ self)) 0.

(** [add_at], with a budget of nested calls: [S n] allows the call itself
    and [n] calls below it. *)
Fixpoint add_at_rec (fuel : nat) (self : BigInt) (idx value : Z) : M BigInt :=
  match fuel with
  | O => None
  | S fuel' =>
      if value <? 0 then raise NotImplementedError
      else if value =? 0 then ret self
      else
        let self := grow self idx in
        cell <- getitem self idx;;
        let new_val := cell + value in
        self <- setitem self idx (new_val mod 10);;
        add_at_rec fuel' self (idx + 1) (new_val / 10)
  end.

(** Sum of the positive cells: with the amount it bounds every carry. *)
Definition weight (self : BigInt) : Z :=
  fold_right (fun d acc => Z.max d 0 + acc) 0 self.

(** A budget that [add_at_rec] never exhausts (lemmas [add_at_rec_enough]
    and [add_at_total] for [idx >= 0], [add_at_rec_enough_neg] and
    [add_at_returns] for every index).  A negative index counts from the
    end, and the carry climbs through [-1] to index 0 before it goes up the
    store again: that takes [-idx] calls more. *)
Definition add_at_gas (self : BigInt) (idx value : Z) : nat :=
  (length self + Z.to_nat (Z.log2 (value + weight self)) + 2
   + Z.to_nat (- idx))%nat.

Definition add_at (self : BigInt) (idx value : Z) : M BigInt :=
  add_at_rec (add_at_gas self idx value) self idx value.

Fixpoint eq_loop (idxs : list Z) (self other : BigInt) (eq : bool) : M bool :=
  match idxs with
  | [] => ret eq
  | i :: idxs' =>
      d1 <- getitem self i;;
      d2 <- getitem other i;;
      let eq := d1 =? d2 in
      if negb eq then ret eq else eq_loop idxs' self other eq
  end.

Definition __eq__ (self other : BigInt) : M bool :=
  if negb (__len__ self =? __len__ other) then ret false
  else eq_loop (range (__len__ self)) self other true.

Fixpoint gt_loop (idxs : list Z) (self other : BigInt) (nlt gt : bool) : M bool :=
  match idxs with
  | [] => ret gt
  | i :: idxs' =>
      d1 <- getitem self i;;
      d2 <- getitem other i;;
      let nlt := d2 <=? d1 in
      let gt := d2 <? d1 in
      if gt || negb nlt then ret gt else gt_loop idxs' self other nlt gt
  end.

Definition __gt__ (self other : BigInt) : M bool :=
  if negb (__len__ self =? __len__ other) then ret (__len__ other <? __len__ self)
  else gt_loop (range_down (__len__ self - 1) (-1)) self other true false.

(** The class defines no [__lt__]: [self < other] falls back to the
    reflected [other.__gt__(self)]. *)
Definition __lt__ (self other : BigInt) : M bool := __gt__ other self.

Definition __ge__ (self other : BigInt) : M bool :=
  lt <- __lt__ self other;; ret (negb lt).

Definition __le__ (self other : BigInt) : M bool :=
  gt <- __gt__ self other;; ret (negb gt).

Definition __add__ (self other : BigInt) : M BigInt :=
  for_in (range (Z.max (__len__ self) (__len__ other)))
    (fun i result =>
       a <- (if i <? __len__ self then getitem self i else ret 0);;
       b <- (if i <? __len__ other then getitem other i else ret 0);;
       add_at result i (a + b))
    empty.

Definition __mul__ (self other : BigInt) : M BigInt :=
  for_in (range (__len__ other))
    (fun j result =>
       row <-
         for_in (range (__len__ self))
           (fun i '(result, carry) =>
              x <- getitem self i;;
              y <- getitem other j;;
              let product := x * y + carry in
              let carry := product / 10 in
              let product := product mod 10 in
              result <- add_at result (j + i) product;;
              ret (result, carry))
           (result, 0);;
       let '(result, carry) := row in
       if negb (carry =? 0) then add_at result (j + __len__ self) carry
       else ret result)
    empty.

Definition __int__ (self : BigInt) : M Z :=
  for_in (range (__len__ self))
    (fun i val => digit <- getitem self i;; ret (val + digit * 10 ^ i))
    0.

Definition __str__ (self : BigInt) : string :=
  fold_left (fun s digit => (format_int digit ++ s)%string) self EmptyString.

Definition __repr__ (self : BigInt) : string :=
  ("BigInt(value=" ++ __str__ self ++ ")")%string.

End BigInt.

Import BigInt.

(** ** The digit-swap product solver (examples/max_product) *)

Module MaxProduct.

(** [a.digits[idx], b.digits[idx] = b.digits[idx], a.digits[idx]]: the
    right-hand side is read first, then the two cells are written. *)
Definition swap_digits (a b : BigInt) (idx : Z) : M (BigInt * BigInt) :=
  y <- getitem b idx;;
  x <- getitem a idx;;
  a <- setitem a idx y;;
  b <- setitem b idx x;;
  ret (a, b).

(** The six values [calc_extreme_products_brute] returns. *)
Record extremes : Type := Extremes {
  c_max : BigInt; d_max : BigInt; p_max : BigInt;
  c_min : BigInt; d_min : BigInt; p_min : BigInt
}.

(** The search swaps cells of its arguments in place and swaps them back, so
    a call also returns the two stores as it leaves them. *)
Fixpoint brute_rec (fuel : nat) (a b : BigInt) (idx : Z)
  : M (BigInt * BigInt * extremes) :=
  match fuel with
  | O => None
  | S fuel' =>
      if negb (__len__ a =? __len__ b) then raise ValueError
      else if __len__ a <=? idx then
        prod <- __mul__ a b;;
        ret (a, b, Extremes (clone a) (clone b) prod (clone a) (clone b) (clone prod))
      else
        r1 <- brute_rec fuel' a b (idx + 1);;
        let '(a, b, e1) := r1 in
        ab <- swap_digits a b idx;;
        let '(a, b) := ab in
        r2 <- brute_rec fuel' a b (idx + 1);;
        let '(a, b, e2) := r2 in
        ab <- swap_digits a b idx;;
        let '(a, b) := ab in
        ge <- __ge__ (p_max e1) (p_max e2);;
        let '(cr_max, dr_max, pr_max) :=
          if ge then (c_max e1, d_max e1, p_max e1)
          else (c_max e2, d_max e2, p_max e2) in
        le <- __le__ (p_min e1) (p_min e2);;
        let '(cr_min, dr_min, pr_min) :=
          if le then (c_min e1, d_min e1, p_min e1)
          else (c_min e2, d_min e2, p_min e2) in
        ret (a, b, Extremes cr_max dr_max pr_max cr_min dr_min pr_min)
  end.

(** One nested call per position from [idx] up to the length, and the leaf. *)
Definition calc_extreme_products_brute (a b : BigInt) (idx : Z)
  : M (BigInt * BigInt * extremes) :=
  brute_rec (S (Z.to_nat (__len__ a - idx))) a b idx.

(** Body of the loop of [calc_max_product], on the state
    [(c, d, found_diff)]. *)
Definition max_step (i : Z) (st : BigInt * BigInt * bool)
  : M (BigInt * BigInt * bool) :=
  let '(c, d, found_diff) := st in
  ci <- getitem c i;;
  di <- getitem d i;;
  let curr_diff := negb (ci =? di) in
  cd <- (if (negb found_diff && curr_diff && (ci <? di))
            || (found_diff && (di <? ci))
         then swap_digits c d i else ret (c, d));;
  let '(c, d) := cd in
  ci <- getitem c i;;
  di <- getitem d i;;
  ret (c, d, found_diff || negb (ci =? di)).

Definition calc_max_product (a b : BigInt) : M (BigInt * BigInt * BigInt) :=
  if negb (__len__ a =? __len__ b) then raise ValueError
  else
    let c := clone a in
    let d := clone b in
    st <- for_in (range_down (-1) (- __len__ a - 1)) max_step (c, d, false);;
    let '(c, d, _) := st in
    p <- __mul__ c d;;
    ret (c, d, p).

(** Body of the loop of [calc_min_product], on the state [(c, d)]. *)
Definition min_step (i : Z) (st : BigInt * BigInt) : M (BigInt * BigInt) :=
  let '(c, d) := st in
  ci <- getitem c i;;
  di <- getitem d i;;
  if ci <? di then swap_digits c d i else ret (c, d).

Definition calc_min_product (a b : BigInt) : M (BigInt * BigInt * BigInt) :=
  if negb (__len__ a =? __len__ b) then raise ValueError
  else
    let c := clone a in
    let d := clone b in
    st <- for_in (range_down (-1) (- __len__ a - 1)) min_step (c, d);;
    let '(c, d) := st in
    p <- __mul__ c d;;
    ret (c, d, p).

(** [print(x1, ..., xn, end=e)] on arguments already converted by [str]:
    they are written separated by one space and followed by [e]. *)
Definition print (args : list string) (end_ : string) : string :=
  (String.concat " " args ++ end_)%string.

(** The newline character. *)
Definition nl : string := String (ascii_of_nat 10) EmptyString.

(** The script run under [if __name__ == "__main__"], as the text it
    writes.  [randint_a] and [randint_b] are the draws made while [a] and
    [b] are constructed. *)
Definition main (int_log10 : Z -> Z) (randint_a randint_b : Z -> Z -> Z -> Z)
  : M string :=
  a <- __init__ int_log10 randint_a None (Some 10);;
  b <- __init__ int_log10 randint_b None (Some 10);;
  r1 <- calc_max_product a b;;
  let '(m1, n1, p1) := r1 in
  r2 <- calc_min_product a b;;
  let '(m2, n2, p2) := r2 in
  r3 <- calc_extreme_products_brute a b 0;;
  let '(a, b, e) := r3 in
  let out1 :=
    print ["a:"; __str__ a; nl ++ "b:"; __str__ b]%string (nl ++ nl)%string in
  let out2 :=
    print ["ALGORITHM:" ++ nl ++ "Max product:" ++ nl ++ "m:"; __str__ m1;
           nl ++ "n:"; __str__ n1; nl ++ "m*n:"; __str__ p1;
           nl ++ nl ++ "Min product:" ++ nl ++ "m:"; __str__ m2;
           nl ++ "n:"; __str__ n2; nl ++ "m*n:"; __str__ p2]%string
          (nl ++ nl)%string in
  let out3 :=
    print ["BRUTE FORCE:" ++ nl ++ "Max product:" ++ nl ++ "m:"; __str__ (c_max e);
           nl ++ "n:"; __str__ (d_max e); nl ++ "m*n:"; __str__ (p_max e);
           nl ++ nl ++ "Min product:" ++ nl ++ "m:"; __str__ (c_min e);
           nl ++ "n:"; __str__ (d_min e); nl ++ "m*n:"; __str__ (p_min e)]%string
          (nl ++ nl)%string in
  eq1 <- __eq__ p1 (p_max e);;
  valid <- (if eq1 then __eq__ p2 (p_min e) else ret false);;
  let out4 :=
    print ["Result is"; if valid then "valid" else "not valid"]%string nl in
  ret (out1 ++ out2 ++ out3 ++ out4)%string.

End MaxProduct.

Import MaxProduct.

(** ** Vocabulary of the specification *)

(** The integer a digit store denotes: cell [k] is the coefficient of
    [10^k]. *)
Definition value_of (l : list Z) : Z :=
  fold_right (fun d acc => d + 10 * acc) 0 l.
Arguments value_of : simpl never.

(** Every cell holds a decimal digit. *)
Definition digit_cells (l : list Z) : Prop := Forall (fun d => 0 <= d <= 9) l.

(** No cell is negative. *)
Definition nonneg_cells (l : list Z) : Prop := Forall (fun d => 0 <= d) l.

(** Canonical form: the most significant cell, when there is one, is not
    zero. *)
Definition canonical (l : list Z) : Prop := forall d, last l = Some d -> d <> 0.

(** The digit count [num_dc] the constructor settles on for a positive
    value. *)
Definition num_dc (int_log10 : Z -> Z) (value : Z) (digit_count : option Z) : Z :=
  match digit_count with
  | None => int_log10 value + 1
  | Some digit_count => Z.min (int_log10 value + 1) digit_count
  end.

(** The exact integer part of the decimal logarithm, by repeated division:
    what [int(math.log10(v))] is meant to be. *)
Fixpoint floor_log10_iter (fuel : nat) (v : Z) : Z :=
  match fuel with
  | O => 0
  | S fuel' => if v <? 10 then 0 else 1 + floor_log10_iter fuel' (v / 10)
  end.

Definition floor_log10 (v : Z) : Z := floor_log10_iter (Z.to_nat (Z.log2 v)) v.

(** A run of [add_at] at a non-negative index, as the recursion unfolds:
    [add_at_run self idx value r n] says that the call ends with outcome [r]
    leaving [n] nested calls below it. *)
Inductive add_at_run : BigInt -> Z -> Z -> result BigInt -> nat -> Prop :=
| run_negative self idx value :
    value < 0 ->
    add_at_run self idx value (Raise NotImplementedError) 0
| run_zero self idx :
    add_at_run self idx 0 (Ok self) 0
| run_carry self idx value l1 cell l2 r n :
    0 < value ->
    grow self idx = l1 ++ cell :: l2 ->
    length l1 = Z.to_nat idx ->
    add_at_run (l1 ++ (cell + value) mod 10 :: l2) (idx + 1)
               ((cell + value) / 10) r n ->
    add_at_run self idx value r (S n).


(** Position [i] decides [x > y]: the digits differ there in favour of [x],
    and every more significant position holds equal digits. *)
Definition decides_gt (x y : list Z) (i : nat) : Prop :=
  exists dx dy, x !! i = Some dx /\ y !! i = Some dy /\ dy < dx /\
                forall j, (i < j)%nat -> x !! j = y !! j.

(** The character of a decimal digit. *)
Definition digit_char (d : Z) : ascii := ascii_of_nat (48 + Z.to_nat d).

(** [swaps a b c d]: the pair [(c, d)] arises from [(a, b)] by exchanging
    the two digits at some of the positions. *)
Inductive swaps : list Z -> list Z -> list Z -> list Z -> Prop :=
| swaps_nil : swaps [] [] [] []
| swaps_keep x y a b c d :
    swaps a b c d -> swaps (x :: a) (y :: b) (x :: c) (y :: d)
| swaps_flip x y a b c d :
    swaps a b c d -> swaps (x :: a) (y :: b) (y :: c) (x :: d).

(** The largest difference [value_of c - value_of d] any exchange reaches:
    every position gives its larger digit to [c]. *)
Fixpoint spread (a b : list Z) : Z :=
  match a, b with
  | x :: a', y :: b' => Z.abs (x - y) + 10 * spread a' b'
  | _, _ => 0
  end.

(** ** Python primitives *)

Lemma bind_ret {A B : Type} (a : A) (k : A -> M B) : bind (ret a) k = k a.
Proof. reflexivity. Qed.


Lemma index_nonneg (n : nat) (i : Z) :
  0 <= i < Z.of_nat n -> index n i = Some (Z.to_nat i).
Proof.
  intros H. unfold index.
  destruct (Z.leb_spec 0 i); [|lia]. destruct (Z.ltb_spec i (Z.of_nat n)); [done|lia].
Qed.

Lemma index_neg (n : nat) (i : Z) :
  - Z.of_nat n <= i < 0 -> index n i = Some (Z.to_nat (Z.of_nat n + i)).
Proof.
  intros H. unfold index.
  destruct (Z.leb_spec 0 i); [lia|]. destruct (Z.leb_spec (- Z.of_nat n) i); [done|lia].
Qed.


Lemma getitem_at (l : list Z) (k : nat) (x : Z) :
  l !! k = Some x -> getitem l (Z.of_nat k) = ret x.
Proof.
  intros H. unfold getitem. rewrite index_nonneg.
  - by rewrite Nat2Z.id, H.
  - apply lookup_lt_Some in H. lia.
Qed.

Lemma setitem_at (l : list Z) (k : nat) (x : Z) :
  (k < length l)%nat -> setitem l (Z.of_nat k) x = ret (<[k:=x]> l).
Proof.
  intros H. unfold setitem. rewrite index_nonneg by lia. by rewrite Nat2Z.id.
Qed.

Lemma getitem_mid (l1 l2 : list Z) (x : Z) :
  getitem (l1 ++ x :: l2) (Z.of_nat (length l1)) = ret x.
Proof. apply getitem_at. by rewrite list_lookup_middle. Qed.

Lemma setitem_mid (l1 l2 : list Z) (x y : Z) :
  setitem (l1 ++ x :: l2) (Z.of_nat (length l1)) y = ret (l1 ++ y :: l2).
Proof.
  rewrite setitem_at by (rewrite length_app; simpl; lia).
  f_equal. f_equal. rewrite insert_app_r_alt by lia.
  by rewrite Nat.sub_diag.
Qed.

Lemma range_S (n : nat) : range (Z.of_nat (S n)) = range (Z.of_nat n) ++ [Z.of_nat n].
Proof. unfold range. by rewrite seqZ_S. Qed.

Lemma for_in_cons {S : Type} (x : Z) (xs : list Z) (body : Z -> S -> M S) (s : S) :
  for_in (x :: xs) body s = (s' <- body x s;; for_in xs body s').
Proof. reflexivity. Qed.

Lemma for_in_app {S : Type} (xs ys : list Z) (body : Z -> S -> M S) (s : S) :
  for_in (xs ++ ys) body s = (s' <- for_in xs body s;; for_in ys body s').
Proof.
  revert s. induction xs as [|x xs IH]; intros s; simpl; [done|].
  destruct (body x s) as [[s'|e]|]; simpl; [apply IH|done|done].
Qed.


(** ** Value of a digit store *)

Lemma value_of_nil : value_of [] = 0.
Proof. reflexivity. Qed.

Lemma value_of_cons (d : Z) (l : list Z) : value_of (d :: l) = d + 10 * value_of l.
Proof. reflexivity. Qed.

Lemma value_of_app (l1 l2 : list Z) :
  value_of (l1 ++ l2) = value_of l1 + 10 ^ Z.of_nat (length l1) * value_of l2.
Proof.
  induction l1 as [|d l1 IH]; simpl length.
  - rewrite app_nil_l, value_of_nil. lia.
  - rewrite Nat2Z.inj_succ, Z.pow_succ_r by lia.
    rewrite <- app_comm_cons, !value_of_cons, IH. lia.
Qed.

Lemma value_of_replicate_0 (n : nat) : value_of (replicate n 0) = 0.
Proof.
  induction n as [|n IH]; [done|].
  change (replicate (S n) 0) with (0 :: replicate n 0).
  rewrite value_of_cons, IH. lia.
Qed.


Lemma value_of_bound (l : list Z) :
  digit_cells l -> 0 <= value_of l < 10 ^ Z.of_nat (length l).
Proof.
  induction 1 as [|d l Hd _ IH]; simpl length.
  - rewrite value_of_nil. simpl. lia.
  - rewrite Nat2Z.inj_succ, Z.pow_succ_r by lia. rewrite value_of_cons. lia.
Qed.

Lemma digit_cells_nonneg (l : list Z) : digit_cells l -> nonneg_cells l.
Proof. intros H. eapply Forall_impl; [exact H|]. simpl. lia. Qed.

Lemma int_loop (l1 l2 : list Z) (acc : Z) :
  for_in (seqZ (Z.of_nat (length l1)) (Z.of_nat (length l2)))
    (fun i val => digit <- getitem (l1 ++ l2) i;; ret (val + digit * 10 ^ i)) acc
  = ret (acc + 10 ^ Z.of_nat (length l1) * value_of l2).
Proof.
  revert l1 acc. induction l2 as [|d l2 IH]; intros l1 acc.
  - rewrite value_of_nil. simpl. unfold ret. do 2 f_equal. lia.
  - simpl length. rewrite seqZ_cons by lia. simpl for_in.
    rewrite getitem_mid. simpl.
    replace (Z.succ (Z.of_nat (length l1))) with (Z.of_nat (length (l1 ++ [d])))
      by (rewrite length_app; simpl; lia).
    replace (Z.pred (Z.of_nat (S (length l2)))) with (Z.of_nat (length l2)) by lia.
    replace (l1 ++ d :: l2) with ((l1 ++ [d]) ++ l2) by (by rewrite <- app_assoc).
    rewrite IH. unfold ret. do 2 f_equal.
    rewrite length_app. simpl length. rewrite Nat2Z.inj_add, Z.pow_add_r by lia.
    rewrite value_of_cons. simpl Z.of_nat. lia.
Qed.

Lemma int_value_of (x : BigInt) : __int__ x = ret (value_of x).
Proof.
  unfold __int__, range, __len__.
  pose proof (int_loop [] x 0) as H.
  change (length []) with 0%nat in H. change (Z.of_nat 0) with 0 in H.
  rewrite app_nil_l in H. rewrite H.
  unfold ret. do 2 f_equal. lia.
Qed.

(** ** Construction from a native integer *)

Lemma take_digits_acc (n : nat) (acc : list Z) (v : Z) :
  take_digits n acc v = acc ++ take_digits n [] v.
Proof.
  revert acc v. induction n as [|n IH]; intros acc v; simpl.
  - by rewrite app_nil_r.
  - rewrite (IH (acc ++ _)), (IH [v mod 10]). by rewrite <- app_assoc.
Qed.

Lemma take_digits_S (n : nat) (v : Z) :
  take_digits (S n) [] v = v mod 10 :: take_digits n [] (v / 10).
Proof. simpl. by rewrite take_digits_acc. Qed.

Lemma length_take_digits (n : nat) (v : Z) : length (take_digits n [] v) = n.
Proof.
  revert v. induction n as [|n IH]; intros v; [done|].
  rewrite take_digits_S. simpl. by rewrite IH.
Qed.

Lemma value_of_take_digits (n : nat) (v : Z) :
  value_of (take_digits n [] v) = v mod 10 ^ Z.of_nat n.
Proof.
  revert v. induction n as [|n IH]; intros v.
  - simpl. by rewrite Z.mod_1_r.
  - rewrite take_digits_S, value_of_cons, IH.
    rewrite Nat2Z.inj_succ, Z.pow_succ_r by lia.
    rewrite Z.rem_mul_r by lia. done.
Qed.

Lemma digit_cells_take_digits (n : nat) (v : Z) : digit_cells (take_digits n [] v).
Proof.
  revert v. induction n as [|n IH]; intros v; [constructor|].
  rewrite take_digits_S. constructor; [|apply IH].
  pose proof (Z.mod_pos_bound v 10). lia.
Qed.

Lemma lookup_take_digits (n k : nat) (v : Z) :
  (k < n)%nat -> take_digits n [] v !! k = Some ((v / 10 ^ Z.of_nat k) mod 10).
Proof.
  revert k v. induction n as [|n IH]; intros k v Hk; [lia|].
  rewrite take_digits_S. destruct k as [|k].
  - simpl. by rewrite Z.div_1_r.
  - simpl lookup. rewrite IH by lia. f_equal.
    rewrite Nat2Z.inj_succ, Z.pow_succ_r by lia.
    rewrite Z.div_div by lia. done.
Qed.

Lemma init_digit_count_0 (int_log10 : Z -> Z) (randint : Z -> Z -> Z -> Z) :
  __init__ int_log10 randint None (Some 0) = ret empty.
Proof. reflexivity. Qed.

Lemma clone_acc (x acc : list Z) :
  fold_left (fun c digit => c ++ [digit]) x acc = acc ++ x.
Proof.
  revert acc. induction x as [|d x IH]; intros acc; simpl.
  - by rewrite app_nil_r.
  - rewrite IH. by rewrite <- app_assoc.
Qed.

Lemma clone_copy (x : BigInt) : clone x = x.
Proof. unfold clone, empty. by rewrite clone_acc. Qed.

(** ** The carry engine [add_at] *)

Lemma length_grow (self : BigInt) (idx : Z) :
  Z.of_nat (length (grow self idx)) = Z.max (__len__ self) (idx + 1).
Proof. unfold grow, __len__. rewrite length_app, length_replicate. lia. Qed.

Lemma grow_within (self : BigInt) (idx : Z) : idx < __len__ self -> grow self idx = self.
Proof.
  intros H. unfold grow. replace (Z.to_nat _) with 0%nat by lia.
  apply app_nil_r.
Qed.

Lemma grow_beyond (self : BigInt) (idx : Z) :
  __len__ self <= idx ->
  grow self idx = (self ++ replicate (Z.to_nat (idx - __len__ self)) 0) ++ [0].
Proof.
  intros H. unfold grow.
  replace (Z.to_nat (idx + 1 - __len__ self))
    with (Z.to_nat (idx - __len__ self) + 1)%nat by lia.
  by rewrite replicate_add, app_assoc.
Qed.

Lemma grow_split (self : BigInt) (idx : Z) :
  0 <= idx ->
  exists l1 cell l2, grow self idx = l1 ++ cell :: l2 /\ length l1 = Z.to_nat idx.
Proof.
  intros H. pose proof (length_grow self idx) as Hlen.
  destruct (drop (Z.to_nat idx) (grow self idx)) as [|cell l2] eqn:Hd.
  - apply (f_equal length) in Hd. rewrite length_drop in Hd. simpl in Hd. lia.
  - exists (take (Z.to_nat idx) (grow self idx)), cell, l2. split.
    + by rewrite <- Hd, take_drop.
    + rewrite length_take. lia.
Qed.

Lemma grow_cases (self : BigInt) (idx : Z) (l1 l2 : list Z) (cell : Z) :
  0 <= idx ->
  grow self idx = l1 ++ cell :: l2 ->
  length l1 = Z.to_nat idx ->
  self = l1 ++ cell :: l2 \/
  (l2 = [] /\ cell = 0 /\ __len__ self <= idx /\
   l1 = self ++ replicate (Z.to_nat (idx - __len__ self)) 0).
Proof.
  intros Hidx Hg Hl1. destruct (Z.lt_ge_cases idx (__len__ self)) as [Hlt|Hge].
  - left. by rewrite grow_within in Hg.
  - right. rewrite grow_beyond in Hg by done.
    apply app_inj_1 in Hg as [-> Hg].
    + injection Hg as <- <-. done.
    + rewrite length_app, length_replicate. unfold __len__ in *. lia.
Qed.

Lemma add_at_rec_S (fuel : nat) (self : BigInt) (idx value : Z)
    (l1 l2 : list Z) (cell : Z) :
  0 < value -> 0 <= idx ->
  grow self idx = l1 ++ cell :: l2 ->
  length l1 = Z.to_nat idx ->
  add_at_rec (S fuel) self idx value
  = add_at_rec fuel (l1 ++ (cell + value) mod 10 :: l2) (idx + 1) ((cell + value) / 10).
Proof.
  intros Hv Hidx Hg Hl1. simpl.
  destruct (Z.ltb_spec value 0); [lia|]. destruct (Z.eqb_spec value 0); [lia|].
  assert (Hi : idx = Z.of_nat (length l1)) by lia.
  rewrite Hg, Hi. by rewrite getitem_mid, bind_ret, setitem_mid, bind_ret.
Qed.

Lemma add_at_run_rec (self : BigInt) (idx value : Z) (r : result BigInt) (n : nat) :
  add_at_run self idx value r n -> 0 <= idx ->
  add_at_rec n self idx value = None /\
  forall fuel, (n < fuel)%nat -> add_at_rec fuel self idx value = Some r.
Proof.
  induction 1 as [self idx value Hv|self idx|self idx value l1 cell l2 r n Hv Hg Hl1 _ IH];
    intros Hidx.
  - split; [done|]. intros [|fuel] Hf; [lia|]. simpl.
    by destruct (Z.ltb_spec value 0); [|lia].
  - split; [done|]. intros [|fuel] Hf; [lia|]. done.
  - destruct IH as [IHn IHf]; [lia|]. split.
    + by rewrite (add_at_rec_S _ _ _ _ l1 l2 cell).
    + intros [|fuel] Hf; [lia|].
      rewrite (add_at_rec_S _ _ _ _ l1 l2 cell) by done. apply IHf. lia.
Qed.

Lemma add_at_rec_run (fuel : nat) (self : BigInt) (idx value : Z) (r : result BigInt) :
  add_at_rec fuel self idx value = Some r -> 0 <= idx ->
  exists n, (n < fuel)%nat /\ add_at_run self idx value r n.
Proof.
  revert self idx value. induction fuel as [|fuel IH]; intros self idx value H Hidx;
    [done|].
  destruct (Z.lt_trichotomy value 0) as [Hv|[->|Hv]].
  - simpl in H. destruct (Z.ltb_spec value 0); [|lia]. injection H as <-.
    exists 0%nat. split; [lia|]. by constructor.
  - simpl in H. injection H as <-. exists 0%nat. split; [lia|]. constructor.
  - destruct (grow_split self idx Hidx) as (l1 & cell & l2 & Hg & Hl1).
    rewrite (add_at_rec_S _ _ _ _ l1 l2 cell) in H by done.
    apply IH in H as (n & Hn & Hrun); [|lia].
    exists (S n). split; [lia|]. by eapply run_carry.
Qed.

Lemma add_at_run_value (self : BigInt) (idx value : Z) (self' : BigInt) (n : nat) :
  add_at_run self idx value (Ok self') n -> 0 <= idx ->
  value_of self' = value_of self + value * 10 ^ idx.
Proof.
  remember (Ok self') as r eqn:Hr.
  induction 1 as [self idx value Hv|self idx|self idx value l1 cell l2 r n Hv Hg Hl1 _ IH];
    intros Hidx.
  - done.
  - injection Hr as <-. lia.
  - rewrite IH by (done || lia).
    assert (Hself : value_of self = value_of (l1 ++ cell :: l2)).
    { rewrite <- Hg. unfold grow. rewrite value_of_app, value_of_replicate_0. lia. }
    rewrite Hself, !value_of_app, !value_of_cons, Hl1, Z2Nat.id by lia.
    rewrite Z.pow_add_r by lia.
    pose proof (Z.div_mod (cell + value) 10). lia.
Qed.

Lemma add_at_run_digit_cells (self : BigInt) (idx value : Z) (self' : BigInt) (n : nat) :
  add_at_run self idx value (Ok self') n -> 0 <= idx ->
  digit_cells self -> digit_cells self'.
Proof.
  remember (Ok self') as r eqn:Hr.
  induction 1 as [self idx value Hv|self idx|self idx value l1 cell l2 r n Hv Hg Hl1 _ IH];
    intros Hidx Hc.
  - done.
  - by injection Hr as <-.
  - apply IH; [done|lia|].
    assert (Hgc : digit_cells (grow self idx)).
    { apply Forall_app. split; [done|]. apply Forall_replicate. lia. }
    rewrite Hg in Hgc. apply Forall_app in Hgc as [H1 H2].
    apply Forall_cons in H2 as [_ H2].
    apply Forall_app. split; [done|]. constructor; [|done].
    pose proof (Z.mod_pos_bound (cell + value) 10). lia.
Qed.

Lemma add_at_run_nonneg (self : BigInt) (idx value : Z) (r : result BigInt) (n : nat) :
  add_at_run self idx value r n -> 0 <= idx -> 0 <= value ->
  nonneg_cells self -> exists self', r = Ok self' /\ nonneg_cells self'.
Proof.
  induction 1 as [self idx value Hv|self idx|self idx value l1 cell l2 r n Hv Hg Hl1 _ IH];
    intros Hidx Hval Hc.
  - lia.
  - eauto.
  - assert (Hgc : nonneg_cells (grow self idx)).
    { apply Forall_app. split; [done|]. apply Forall_replicate. lia. }
    rewrite Hg in Hgc. apply Forall_app in Hgc as [H1 H2].
    apply Forall_cons in H2 as [Hcell H2].
    apply IH; [lia| |].
    + apply Z.div_pos; lia.
    + apply Forall_app. split; [done|]. constructor; [|done].
      pose proof (Z.mod_pos_bound (cell + value) 10). lia.
Qed.

Lemma add_at_run_length (self : BigInt) (idx value : Z) (self' : BigInt) (n : nat) :
  add_at_run self idx value (Ok self') n -> 0 <= idx ->
  (length self <= length self')%nat.
Proof.
  remember (Ok self') as r eqn:Hr.
  induction 1 as [self idx value Hv|self idx|self idx value l1 cell l2 r n Hv Hg Hl1 _ IH];
    intros Hidx.
  - done.
  - by injection Hr as <-.
  - etrans; [|apply IH; done || lia].
    pose proof (length_grow self idx) as Hlen. rewrite Hg in Hlen.
    rewrite !length_app in *. simpl length in *. unfold __len__ in Hlen. lia.
Qed.

Lemma add_at_run_depth (self : BigInt) (idx value : Z) (self' : BigInt) (n : nat) :
  add_at_run self idx value (Ok self') n -> 0 <= idx ->
  n = 0%nat \/ Z.of_nat n + idx <= Z.of_nat (length self').
Proof.
  remember (Ok self') as r eqn:Hr.
  induction 1 as [self idx value Hv|self idx|self idx value l1 cell l2 r n Hv Hg Hl1 Hrun IH];
    intros Hidx.
  - by left.
  - by left.
  - right. destruct IH as [->|IH]; [done|lia| |lia].
    subst r. apply add_at_run_length in Hrun; [|lia].
    rewrite length_app in Hrun. simpl in Hrun. lia.
Qed.

(** *** Termination of the carry recursion *)

Lemma weight_nonneg (l : list Z) : 0 <= weight l.
Proof. induction l as [|d l IH]; simpl; lia. Qed.

Lemma weight_app (l1 l2 : list Z) : weight (l1 ++ l2) = weight l1 + weight l2.
Proof. induction l1 as [|d l1 IH]; simpl; lia. Qed.

Lemma weight_drop (k : nat) (l : list Z) : weight (drop k l) <= weight l.
Proof.
  rewrite <- (take_drop k l) at 2. rewrite weight_app.
  pose proof (weight_nonneg (take k l)). lia.
Qed.

Lemma drop_past_cell (l1 l2 : list Z) (x : Z) :
  drop (S (length l1)) (l1 ++ x :: l2) = l2.
Proof. induction l1 as [|d l1 IH]; [done|]. exact IH. Qed.

Lemma log2_div10 (v : Z) : 0 < v / 10 -> Z.log2 (v / 10) < Z.log2 v.
Proof.
  intros H. assert (Hv : 0 < v).
  { destruct (Z.lt_ge_cases 0 v); [done|].
    pose proof (Z.div_le_upper_bound v 10 0). lia. }
  apply Z.log2_lt_pow2; [done|].
  pose proof (Z.log2_spec v Hv) as [_ Hs].
  rewrite Z.pow_succ_r in Hs by apply Z.log2_nonneg.
  apply Z.div_lt_upper_bound; lia.
Qed.

Lemma add_at_rec_nonpos (fuel : nat) (self : BigInt) (idx value : Z) :
  value <= 0 -> exists r, add_at_rec (S fuel) self idx value = Some r.
Proof.
  intros H. simpl. destruct (Z.ltb_spec value 0); [by eexists|].
  destruct (Z.eqb_spec value 0); [by eexists|lia].
Qed.

Lemma add_at_gas_S (self : BigInt) (idx value : Z) :
  exists n, add_at_gas self idx value = S n.
Proof.
  exists (length self + Z.to_nat (Z.log2 (value + weight self)) + 1
          + Z.to_nat (- idx))%nat.
  unfold add_at_gas. lia.
Qed.

Lemma add_at_rec_enough (fuel : nat) (self : BigInt) (idx value : Z) :
  0 <= idx ->
  (length self - Z.to_nat idx
   + Z.to_nat (Z.log2 (value + weight (drop (Z.to_nat idx) self))) + 2 <= fuel)%nat ->
  exists r, add_at_rec fuel self idx value = Some r.
Proof.
  revert self idx value. induction fuel as [|fuel IH]; intros self idx value Hidx Hf;
    [lia|].
  destruct (Z.le_gt_cases value 0) as [Hv|Hv]; [by apply add_at_rec_nonpos|].
  destruct (grow_split self idx Hidx) as (l1 & cell & l2 & Hg & Hl1).
  rewrite (add_at_rec_S _ _ _ _ l1 l2 cell) by done.
  destruct (Z.le_gt_cases ((cell + value) / 10) 0) as [Hc|Hc].
  { destruct fuel as [|fuel]; [lia|]. by apply add_at_rec_nonpos. }
  assert (Hsum : 10 <= cell + value).
  { destruct (Z.lt_ge_cases (cell + value) 10) as [Hlt|]; [|done].
    pose proof (Z.div_lt_upper_bound (cell + value) 10 1). lia. }
  apply IH; [lia|].
  replace (Z.to_nat (idx + 1)) with (S (length l1)) by lia.
  rewrite length_app. simpl length.
  rewrite drop_past_cell.
  pose proof (weight_nonneg l2) as Hw2.
  destruct (grow_cases _ _ _ _ _ Hidx Hg Hl1) as [->|(-> & -> & Hlen & Hl1')].
  - rewrite length_app in Hf. simpl length in Hf.
    rewrite <- Hl1, drop_app_length in Hf. simpl weight in Hf.
    assert (Hle : Z.log2 ((cell + value) / 10 + weight l2)
                  <= Z.log2 (value + (Z.max cell 0 + weight l2))).
    { apply Z.log2_le_mono.
      pose proof (Z.div_le_upper_bound (cell + value) 10 (cell + value)). lia. }
    pose proof (Z.log2_nonneg ((cell + value) / 10 + weight l2)). lia.
  - rewrite drop_ge in Hf by (unfold __len__ in Hlen; lia). simpl weight in *.
    pose proof (log2_div10 value) as Hlog. rewrite !Z.add_0_l, !Z.add_0_r in *.
    simpl length. pose proof (Z.log2_nonneg (value / 10)). lia.
Qed.

Lemma add_at_total (self : BigInt) (idx value : Z) :
  0 <= idx ->
  exists r n, add_at self idx value = Some r /\ add_at_run self idx value r n.
Proof.
  intros Hidx. unfold add_at.
  destruct (add_at_rec_enough (add_at_gas self idx value) self idx value Hidx) as [r Hr].
  - unfold add_at_gas.
    assert (Z.log2 (value + weight (drop (Z.to_nat idx) self))
            <= Z.log2 (value + weight self)).
    { apply Z.log2_le_mono. pose proof (weight_drop (Z.to_nat idx) self). lia. }
    pose proof (Z.log2_nonneg (value + weight (drop (Z.to_nat idx) self))). lia.
  - destruct (add_at_rec_run _ _ _ _ _ Hr Hidx) as (n & _ & Hrun). eauto.
Qed.

(** *** Canonical form through the carry *)

Lemma canonical_nil : canonical [].
Proof. intros d H. done. Qed.

Lemma canonical_snoc (l : list Z) (d : Z) : canonical (l ++ [d]) <-> d <> 0.
Proof.
  unfold canonical. rewrite last_snoc. split.
  - intros H. by apply H.
  - intros H d' [= <-]. done.
Qed.

Lemma canonical_below (l1 l2 : list Z) (c c' d : Z) :
  canonical (l1 ++ c :: l2 ++ [d]) -> canonical (l1 ++ c' :: l2 ++ [d]).
Proof.
  unfold canonical.
  replace (l1 ++ c :: l2 ++ [d]) with ((l1 ++ c :: l2) ++ [d])
    by (by rewrite <- app_assoc).
  replace (l1 ++ c' :: l2 ++ [d]) with ((l1 ++ c' :: l2) ++ [d])
    by (by rewrite <- app_assoc).
  by rewrite !last_snoc.
Qed.

Lemma add_at_run_canonical (self : BigInt) (idx value : Z) (self' : BigInt) (n : nat) :
  add_at_run self idx value (Ok self') n -> 0 <= idx ->
  nonneg_cells self ->
  canonical self \/ (0 < value /\ __len__ self <= idx + 1) ->
  canonical self'.
Proof.
  remember (Ok self') as r eqn:Hr.
  induction 1 as [self idx value Hv|self idx|self idx value l1 cell l2 r n Hv Hg Hl1 Hrun IH];
    intros Hidx Hc Hq.
  - done.
  - injection Hr as <-. destruct Hq as [|[? _]]; [done|lia].
  - assert (Hgc : nonneg_cells (grow self idx)).
    { apply Forall_app. split; [done|]. apply Forall_replicate. lia. }
    rewrite Hg in Hgc. apply Forall_app in Hgc as [H1 H2].
    apply Forall_cons in H2 as [Hcell H2].
    pose proof (Z.mod_pos_bound (cell + value) 10) as Hmod.
    pose proof (Z.div_mod (cell + value) 10) as Hdm.
    assert (Hdiv : 0 <= (cell + value) / 10) by (apply Z.div_pos; lia).
    apply IH; [done|lia| |].
    { apply Forall_app. split; [done|]. constructor; [lia|done]. }
    destruct (Z.eq_dec ((cell + value) / 10) 0) as [Hz|Hnz].
    + left. destruct l2 as [|d l2 _] using rev_ind.
      * apply canonical_snoc. lia.
      * destruct (grow_cases _ _ _ _ _ Hidx Hg Hl1) as [->|(Hnil & _)].
        -- destruct Hq as [Hq|[_ Hq]]; [by eapply canonical_below|].
           unfold __len__ in Hq.
           rewrite length_app, length_cons, length_app in Hq. simpl in Hq. lia.
        -- by destruct l2.
    + destruct l2 as [|d l2 _] using rev_ind.
      * right. split; [lia|]. unfold __len__. rewrite length_app. simpl. lia.
      * left. destruct (grow_cases _ _ _ _ _ Hidx Hg Hl1) as [->|(Hnil & _)].
        -- destruct Hq as [Hq|[_ Hq]]; [by eapply canonical_below|].
           unfold __len__ in Hq.
           rewrite length_app, length_cons, length_app in Hq. simpl in Hq. lia.
        -- by destruct l2.
Qed.

(** What a successful call of [add_at] on a store of non-negative cells
    does. *)
Lemma add_at_ok (self : BigInt) (idx value : Z) :
  nonneg_cells self -> 0 <= idx -> 0 <= value ->
  exists self',
    add_at self idx value = ret self' /\
    value_of self' = value_of self + value * 10 ^ idx /\
    nonneg_cells self' /\
    (digit_cells self -> digit_cells self') /\
    (canonical self -> canonical self').
Proof.
  intros Hc Hidx Hv.
  destruct (add_at_total self idx value Hidx) as (r & n & Hadd & Hrun).
  destruct (add_at_run_nonneg _ _ _ _ _ Hrun Hidx Hv Hc) as (self' & -> & Hc').
  exists self'. split; [done|]. split; [by eapply add_at_run_value|].
  split; [done|]. split.
  - by eapply add_at_run_digit_cells.
  - intros Hcan. eapply add_at_run_canonical; eauto.
Qed.

(** ** Loops over [range(n)] *)

Lemma for_in_range_inv {S : Type} (n : nat) (body : Z -> S -> M S) (s0 : S)
    (I : nat -> S -> Prop) :
  I 0%nat s0 ->
  (forall k s, (k < n)%nat -> I k s ->
     exists s', body (Z.of_nat k) s = ret s' /\ I (Datatypes.S k) s') ->
  exists s, for_in (range (Z.of_nat n)) body s0 = ret s /\ I n s.
Proof.
  intros H0 Hstep. induction n as [|n IH].
  - exists s0. done.
  - destruct IH as (s & Hs & HI); [intros; apply Hstep; [lia|done]|].
    destruct (Hstep n s) as (s' & Hs' & HI'); [lia|done|].
    exists s'. split; [|done].
    rewrite range_S, for_in_app, Hs, bind_ret. simpl. by rewrite Hs'.
Qed.

Lemma getitem_nth (l : list Z) (i : nat) :
  (i < length l)%nat -> getitem l (Z.of_nat i) = ret (nth i l 0).
Proof.
  intros H. destruct (lookup_lt_is_Some_2 l i H) as [x Hx].
  rewrite (getitem_at l i x Hx). by rewrite (nth_lookup_Some _ _ _ _ Hx).
Qed.

Lemma operand_digit (l : list Z) (i : nat) :
  (if Z.of_nat i <? __len__ l then getitem l (Z.of_nat i) else ret 0)
  = ret (nth i l 0).
Proof.
  unfold __len__. destruct (Z.ltb_spec (Z.of_nat i) (Z.of_nat (length l))).
  - apply getitem_nth. lia.
  - by rewrite nth_overflow by lia.
Qed.

Lemma nth_nonneg (l : list Z) (i : nat) : nonneg_cells l -> 0 <= nth i l 0.
Proof.
  intros H. destruct (l !! i) as [x|] eqn:Hx.
  - rewrite (nth_lookup_Some _ _ _ _ Hx).
    by apply (Forall_lookup_1 _ _ _ _ H Hx).
  - rewrite nth_overflow; [done|]. by apply lookup_ge_None.
Qed.

Lemma value_of_take_S (l : list Z) (k : nat) :
  value_of (take (S k) l) = value_of (take k l) + nth k l 0 * 10 ^ Z.of_nat k.
Proof.
  destruct (l !! k) as [x|] eqn:Hx.
  - rewrite (take_S_r _ _ _ Hx), value_of_app, value_of_cons, value_of_nil.
    rewrite (nth_lookup_Some _ _ _ _ Hx), length_take.
    apply lookup_lt_Some in Hx. replace (k `min` length l)%nat with k by lia. lia.
  - apply lookup_ge_None in Hx.
    rewrite !take_ge by lia. rewrite nth_overflow by lia. lia.
Qed.

(** ** Addition and multiplication *)

Lemma add_spec (x y : BigInt) :
  nonneg_cells x -> nonneg_cells y ->
  exists r, __add__ x y = ret r /\
            value_of r = value_of x + value_of y /\
            digit_cells r /\ canonical r.
Proof.
  intros Hx Hy. unfold __add__, __len__. rewrite <- Nat2Z.inj_max.
  destruct (for_in_range_inv (length x `max` length y)
    (fun i result =>
       a <- (if i <? __len__ x then getitem x i else ret 0);;
       b <- (if i <? __len__ y then getitem y i else ret 0);;
       add_at result i (a + b))
    empty
    (fun k r => value_of r = value_of (take k x) + value_of (take k y)
                /\ digit_cells r /\ canonical r))
    as (r & Hr & Hv & Hd & Hc).
  - split; [done|]. split; [constructor|apply canonical_nil].
  - intros k r Hk (Hv & Hd & Hc).
    rewrite !operand_digit, !bind_ret.
    pose proof (nth_nonneg x k Hx). pose proof (nth_nonneg y k Hy).
    destruct (add_at_ok r (Z.of_nat k) (nth k x 0 + nth k y 0))
      as (r' & Hr' & Hv' & _ & Hd' & Hc'); [by apply digit_cells_nonneg|lia|lia|].
    exists r'. split; [done|]. split; [|auto].
    rewrite Hv', Hv, !value_of_take_S. lia.
  - exists r. split; [done|]. split; [|done].
    rewrite Hv, !take_ge by lia. done.
Qed.

Lemma mul_row (x y : BigInt) (j : nat) (r0 : BigInt) :
  nonneg_cells x -> nonneg_cells y -> (j < length y)%nat ->
  digit_cells r0 -> canonical r0 ->
  exists r carry,
    for_in (range (__len__ x))
      (fun i '(result, carry) =>
         a <- getitem x i;;
         b <- getitem y (Z.of_nat j);;
         let product := a * b + carry in
         let carry := product / 10 in
         let product := product mod 10 in
         result <- add_at result (Z.of_nat j + i) product;;
         ret (result, carry))
      (r0, 0) = ret (r, carry) /\
    0 <= carry /\
    value_of r + carry * 10 ^ Z.of_nat (j + length x)
      = value_of r0 + nth j y 0 * 10 ^ Z.of_nat j * value_of x /\
    digit_cells r /\ canonical r.
Proof.
  intros Hx Hy Hj Hd0 Hc0. unfold __len__.
  destruct (for_in_range_inv (length x)
    (fun i '(result, carry) =>
         a <- getitem x i;;
         b <- getitem y (Z.of_nat j);;
         let product := a * b + carry in
         let carry := product / 10 in
         let product := product mod 10 in
         result <- add_at result (Z.of_nat j + i) product;;
         ret (result, carry))
    (r0, 0)
    (fun k '(r, carry) =>
       0 <= carry /\
       value_of r + carry * 10 ^ Z.of_nat (j + k)
         = value_of r0 + nth j y 0 * 10 ^ Z.of_nat j * value_of (take k x) /\
       digit_cells r /\ canonical r))
    as ([r carry] & Hr & Hcarry & Hv & Hd & Hc).
  - simpl. split; [lia|]. split; [|done]. rewrite take_0, value_of_nil. lia.
  - intros k [r carry] Hk (Hcarry & Hv & Hd & Hc).
    rewrite (getitem_nth x k Hk), (getitem_nth y j Hj), !bind_ret. cbv zeta.
    pose proof (nth_nonneg x k Hx) as Hxk. pose proof (nth_nonneg y j Hy) as Hyj.
    set (product := nth k x 0 * nth j y 0 + carry).
    assert (Hp : 0 <= product) by (unfold product; nia).
    pose proof (Z.mod_pos_bound product 10) as Hmod.
    pose proof (Z.div_mod product 10) as Hdm.
    destruct (add_at_ok r (Z.of_nat j + Z.of_nat k) (product mod 10))
      as (r' & Hr' & Hv' & _ & Hd' & Hc'); [by apply digit_cells_nonneg|lia|lia|].
    exists (r', product / 10). rewrite Hr', bind_ret. split; [done|].
    split; [apply Z.div_pos; lia|]. split; [|auto].
    rewrite Hv', value_of_take_S.
    replace (Z.of_nat (j + S k)) with (Z.succ (Z.of_nat j + Z.of_nat k)) by lia.
    rewrite Z.pow_succ_r by lia.
    rewrite Nat2Z.inj_add in Hv. rewrite !Z.pow_add_r in * by lia.
    unfold product in *. nia.
  - exists r, carry. rewrite take_ge in Hv by lia. done.
Qed.

Lemma mul_spec (x y : BigInt) :
  nonneg_cells x -> nonneg_cells y ->
  exists r, __mul__ x y = ret r /\
            value_of r = value_of x * value_of y /\
            digit_cells r /\ canonical r.
Proof.
  intros Hx Hy. unfold __mul__. unfold __len__ at 1.
  destruct (for_in_range_inv (length y)
    (fun j result =>
       row <-
         for_in (range (__len__ x))
           (fun i '(result, carry) =>
              a <- getitem x i;;
              b <- getitem y j;;
              let product := a * b + carry in
              let carry := product / 10 in
              let product := product mod 10 in
              result <- add_at result (j + i) product;;
              ret (result, carry))
           (result, 0);;
       let '(result, carry) := row in
       if negb (carry =? 0) then add_at result (j + __len__ x) carry
       else ret result)
    empty
    (fun m r => value_of r = value_of x * value_of (take m y)
                /\ digit_cells r /\ canonical r))
    as (r & Hr & Hv & Hd & Hc).
  - simpl. split; [|split; [constructor|apply canonical_nil]].
    unfold empty. rewrite take_0, !value_of_nil. lia.
  - intros j r Hj (Hv & Hd & Hc).
    destruct (mul_row x y j r Hx Hy Hj Hd Hc) as (r1 & carry & Hrow & Hcarry & Hv1 & Hd1 & Hc1).
    rewrite Hrow, bind_ret.
    destruct (Z.eqb_spec carry 0) as [->|Hne]; simpl negb; cbv iota.
    + exists r1. split; [done|]. split; [|done].
      rewrite value_of_take_S. lia.
    + destruct (add_at_ok r1 (Z.of_nat j + __len__ x) carry)
        as (r' & Hr' & Hv' & _ & Hd' & Hc');
        [by apply digit_cells_nonneg|unfold __len__; lia|lia|].
      exists r'. split; [done|]. split; [|auto].
      rewrite Hv', value_of_take_S. unfold __len__.
      rewrite Nat2Z.inj_add in Hv1. lia.
  - exists r. rewrite take_ge in Hv by lia. done.
Qed.

(** ** Construction, conversion and arithmetic on native integers *)

Section NativeIntegers.

(** The two library functions the constructor calls. *)
Variable int_log10 : Z -> Z.
Variable randint : Z -> Z -> Z -> Z.

Lemma init_zero (dc : option Z) :
  __init__ int_log10 randint (Some 0) dc = ret [].
Proof. reflexivity. Qed.

Lemma init_positive (v : Z) (dc : option Z) :
  0 < v ->
  __init__ int_log10 randint (Some v) dc
  = ret (take_digits
           (Z.to_nat match dc with
                     | None => int_log10 v + 1
                     | Some n => Z.min (int_log10 v + 1) n
                     end) [] v).
Proof.
  intros Hv. unfold __init__.
  destruct (Z.ltb_spec v 0); [lia|]. destruct (Z.eqb_spec v 0); [lia|]. done.
Qed.

Lemma init_value (v : Z) :
  0 <= v -> (0 < v -> v < 10 ^ (int_log10 v + 1)) ->
  exists x, __init__ int_log10 randint (Some v) None = ret x /\
            value_of x = v /\ digit_cells x.
Proof.
  intros Hv Hlog. destruct (Z.eq_dec v 0) as [->|Hne].
  - exists []. split; [apply init_zero|]. split; [done|constructor].
  - rewrite init_positive by lia. eexists. split; [done|].
    split; [|apply digit_cells_take_digits].
    rewrite value_of_take_digits.
    assert (0 <= int_log10 v + 1).
    { destruct (Z.lt_ge_cases (int_log10 v + 1) 0) as [Hneg|]; [|done].
      rewrite Z.pow_neg_r in Hlog by done. lia. }
    rewrite Z2Nat.id by done. apply Z.mod_small. lia.
Qed.

(** Whatever the logarithm returns, the constructed store denotes the value
    modulo [10 ^ val_dc]: an estimate that falls short drops the leading
    digits. *)
Lemma init_value_mod (v : Z) :
  0 < v ->
  (x <- __init__ int_log10 randint (Some v) None;; __int__ x)
  = ret (v mod 10 ^ Z.of_nat (Z.to_nat (int_log10 v + 1))).
Proof.
  intros Hv. rewrite init_positive by done.
  by rewrite bind_ret, int_value_of, value_of_take_digits.
Qed.

(** C4. Round trip: a non-negative native integer [v], constructed with no
    digit count and converted back, gives [v] again.  The constructor sizes
    the store with the floating-point logarithm; the round trip needs that
    estimate not to fall short of the digits of [v]. *)
Theorem int_init_roundtrip (v : Z) :
  0 <= v -> (0 < v -> v < 10 ^ (int_log10 v + 1)) ->
  (x <- __init__ int_log10 randint (Some v) None;; __int__ x) = ret v.
Proof.
  intros Hv Hlog.
  destruct (init_value v Hv Hlog) as (x & -> & Hx & _).
  by rewrite bind_ret, int_value_of, Hx.
Qed.

(** C2. Addition: for non-negative native integers [a] and [b],
    [int(BigInt(value=a) + BigInt(value=b)) == a + b] (the logarithm not
    falling short of the digits of either operand). *)
Theorem add_correct (a b : Z) :
  0 <= a -> 0 <= b ->
  (0 < a -> a < 10 ^ (int_log10 a + 1)) ->
  (0 < b -> b < 10 ^ (int_log10 b + 1)) ->
  (x <- __init__ int_log10 randint (Some a) None;;
   y <- __init__ int_log10 randint (Some b) None;;
   s <- __add__ x y;;
   __int__ s) = ret (a + b).
Proof.
  intros Ha Hb Hla Hlb.
  destruct (init_value a Ha Hla) as (x & -> & Hx & Hdx).
  destruct (init_value b Hb Hlb) as (y & -> & Hy & Hdy).
  rewrite !bind_ret.
  destruct (add_spec x y) as (s & -> & Hs & _); [by apply digit_cells_nonneg..|].
  by rewrite bind_ret, int_value_of, Hs, Hx, Hy.
Qed.

(** C1. Multiplication: for non-negative native integers [a] and [b],
    [int(BigInt(value=a) * BigInt(value=b)) == a * b] (the logarithm not
    falling short of the digits of either operand). *)
Theorem mul_correct (a b : Z) :
  0 <= a -> 0 <= b ->
  (0 < a -> a < 10 ^ (int_log10 a + 1)) ->
  (0 < b -> b < 10 ^ (int_log10 b + 1)) ->
  (x <- __init__ int_log10 randint (Some a) None;;
   y <- __init__ int_log10 randint (Some b) None;;
   p <- __mul__ x y;;
   __int__ p) = ret (a * b).
Proof.
  intros Ha Hb Hla Hlb.
  destruct (init_value a Ha Hla) as (x & -> & Hx & Hdx).
  destruct (init_value b Hb Hlb) as (y & -> & Hy & Hdy).
  rewrite !bind_ret.
  destruct (mul_spec x y) as (p & -> & Hp & _); [by apply digit_cells_nonneg..|].
  by rewrite bind_ret, int_value_of, Hp, Hx, Hy.
Qed.

(** *** Canonical form of constructed and derived values, and errors *)

Lemma last_take_digits (n : nat) (v : Z) :
  (0 < n)%nat ->
  last (take_digits n [] v) = Some ((v / 10 ^ (Z.of_nat n - 1)) mod 10).
Proof.
  intros Hn. rewrite last_lookup, length_take_digits, lookup_take_digits by lia.
  by replace (Z.of_nat (Nat.pred n)) with (Z.of_nat n - 1) by lia.
Qed.

Lemma init_canonical_iff (v : Z) (dc : option Z) :
  0 < v ->
  exists c, __init__ int_log10 randint (Some v) dc = ret c /\
    (canonical c <->
     num_dc int_log10 v dc <= 0 \/
     (v / 10 ^ (num_dc int_log10 v dc - 1)) mod 10 <> 0).
Proof.
  intros Hv. rewrite init_positive by done. fold (num_dc int_log10 v dc).
  eexists. split; [done|].
  destruct (Z.le_gt_cases (num_dc int_log10 v dc) 0) as [Hle|Hgt].
  - replace (Z.to_nat _) with 0%nat by lia. simpl. split; [auto|].
    intros _. apply canonical_nil.
  - unfold canonical. rewrite last_take_digits by lia.
    rewrite Z2Nat.id by lia. split.
    + intros H. right. by apply H.
    + intros [?|H] d [= <-]; [lia|done].
Qed.

Lemma leading_digit (v k : Z) :
  0 <= k -> 10 ^ k <= v < 10 ^ (k + 1) -> (v / 10 ^ k) mod 10 <> 0.
Proof.
  intros Hk [Hlo Hhi]. assert (0 < 10 ^ k) by (apply Z.pow_pos_nonneg; lia).
  rewrite Z.pow_add_r, Z.pow_1_r in Hhi by lia.
  assert (1 <= v / 10 ^ k) by (apply Z.div_le_lower_bound; lia).
  assert (v / 10 ^ k < 10) by (apply Z.div_lt_upper_bound; lia).
  rewrite Z.mod_small; lia.
Qed.

Lemma init_untruncated_canonical (v : Z) (dc : option Z) :
  0 <= v ->
  (0 < v -> 10 ^ int_log10 v <= v < 10 ^ (int_log10 v + 1)) ->
  (forall n, dc = Some n -> int_log10 v + 1 <= n) ->
  exists c, __init__ int_log10 randint (Some v) dc = ret c /\ canonical c.
Proof.
  intros Hv Hlog Hdc. destruct (Z.eq_dec v 0) as [->|Hne].
  - exists []. split; [apply init_zero|apply canonical_nil].
  - destruct (init_canonical_iff v dc) as (c & Hc & Hiff); [lia|].
    exists c. split; [done|]. apply Hiff.
    destruct (Hlog ltac:(lia)) as [Hlo Hhi].
    assert (Hk : 0 <= int_log10 v).
    { destruct (Z.lt_ge_cases (int_log10 v) 0) as [Hneg|]; [|done].
      destruct (Z.eq_dec (int_log10 v) (-1)) as [Heq|Hneq].
      - rewrite Heq in Hhi. simpl in Hhi. lia.
      - rewrite Z.pow_neg_r in Hhi by lia. lia. }
    assert (Hnum : num_dc int_log10 v dc = int_log10 v + 1).
    { unfold num_dc. destruct dc as [n|]; [|done]. specialize (Hdc n eq_refl). lia. }
    right. rewrite Hnum. replace (int_log10 v + 1 - 1) with (int_log10 v) by lia.
    by apply leading_digit.
Qed.

Lemma init_low_digits (v : Z) (dc : option Z) :
  0 < v ->
  exists c, __init__ int_log10 randint (Some v) dc = ret c /\
    (forall k, (k < length c)%nat -> c !! k = Some ((v / 10 ^ Z.of_nat k) mod 10)) /\
    (0 < num_dc int_log10 v dc ->
     Z.of_nat (length c) = num_dc int_log10 v dc /\
     last c = Some ((v / 10 ^ (num_dc int_log10 v dc - 1)) mod 10)).
Proof.
  intros Hv. rewrite init_positive by done. fold (num_dc int_log10 v dc).
  eexists. split; [done|]. rewrite length_take_digits. split.
  - intros k Hk. by apply lookup_take_digits.
  - intros Hn. split; [lia|].
    rewrite last_take_digits by lia. by rewrite Z2Nat.id by lia.
Qed.

(** C5 (amended). Addition and multiplication return a canonical value for
    any operands with non-negative cells, canonical or not, and [add_at]
    keeps a canonical store of non-negative cells canonical.  Construction
    from 0 gives the empty store.  Construction from a positive value keeps
    the low [num_dc] digits of the value as they are, so the most
    significant cell is the digit of the value at position [num_dc - 1]:
    the result is canonical when nothing is truncated and the logarithm
    gives the exact digit count, and a truncating digit count leaves a zero
    on top whenever that digit of the value is zero. *)
Theorem canonical_form_derived (v : Z) (dc : option Z) (x y : BigInt)
    (idx amount : Z) :
  0 < v -> nonneg_cells x -> nonneg_cells y ->
  0 <= idx -> 0 <= amount ->
  (exists c, __init__ int_log10 randint (Some v) dc = ret c /\
     (forall k, (k < length c)%nat ->
                c !! k = Some ((v / 10 ^ Z.of_nat k) mod 10)) /\
     (0 < num_dc int_log10 v dc ->
      Z.of_nat (length c) = num_dc int_log10 v dc /\
      last c = Some ((v / 10 ^ (num_dc int_log10 v dc - 1)) mod 10)) /\
     (canonical c <->
      num_dc int_log10 v dc <= 0 \/
      (v / 10 ^ (num_dc int_log10 v dc - 1)) mod 10 <> 0) /\
     (10 ^ int_log10 v <= v < 10 ^ (int_log10 v + 1) ->
      (forall n, dc = Some n -> int_log10 v + 1 <= n) ->
      canonical c)) /\
  __init__ int_log10 randint (Some 0) dc = ret [] /\
  (canonical x -> exists x', add_at x idx amount = ret x' /\ canonical x') /\
  (exists s, __add__ x y = ret s /\ canonical s) /\
  (exists p, __mul__ x y = ret p /\ canonical p).
Proof.
  intros Hv Hx Hy Hidx Ham. split; [|split; [|split; [|split]]].
  - destruct (init_canonical_iff v dc Hv) as (c & Hc & Hiff).
    exists c. split; [done|].
    destruct (init_low_digits v dc Hv) as (c' & Hc' & Hlow & Htop).
    rewrite Hc in Hc'. injection Hc' as <-.
    split; [done|]. split; [done|]. split; [done|].
    intros Hlog Hdc.
    destruct (init_untruncated_canonical v dc) as (c'' & Hc'' & Hcan);
      [lia|done|done|].
    rewrite Hc in Hc''. by injection Hc'' as ->.
  - apply init_zero.
  - intros Hcx.
    destruct (add_at_ok x idx amount Hx Hidx Ham) as (x' & Hadd & _ & _ & _ & Hcan).
    exists x'. auto.
  - destruct (add_spec x y Hx Hy) as (s & Hs & _ & _ & Hcan). eauto.
  - destruct (mul_spec x y Hx Hy) as (p & Hp & _ & _ & Hcan). eauto.
Qed.

(** The same store results whatever the logarithm returns for 100, as long
    as it is at least 1 (the double-precision value is exactly 2.0). *)
Lemma init_truncated_100 :
  1 <= int_log10 100 ->
  __init__ int_log10 randint (Some 100) (Some 2) = ret [0; 0].
Proof.
  intros H. rewrite init_positive by lia.
  replace (Z.min (int_log10 100 + 1) 2) with 2 by lia. reflexivity.
Qed.

(** An estimate that runs one ahead also breaks canonical form without any
    digit count: the double-precision logarithm of 999999999999999 rounds up
    to 15.0, and the constructor then stores sixteen cells, the last one
    zero. *)
Lemma init_overcount :
  int_log10 999999999999999 = 15 ->
  __init__ int_log10 randint (Some 999999999999999) None
  = ret (replicate 15 9 ++ [0]).
Proof. intros H. rewrite init_positive by lia. rewrite H. reflexivity. Qed.

(** *** Errors *)

Lemma add_at_negative (self : BigInt) (idx amount : Z) :
  amount < 0 -> add_at self idx amount = raise NotImplementedError.
Proof.
  intros H. unfold add_at.
  destruct (add_at_gas_S self idx amount) as [n ->].
  simpl. by destruct (Z.ltb_spec amount 0); [|lia].
Qed.

(** C6. The constructor raises exactly when the value is negative, and
    [add_at] (on a store of non-negative cells, at a non-negative index)
    raises exactly when the amount is negative; the exception is the
    NotImplementedError the source uses for an invalid argument. *)
Theorem invalid_argument_errors (v : Z) (dc : option Z) (self : BigInt)
    (idx amount : Z) :
  nonneg_cells self -> 0 <= idx ->
  ((exists e, __init__ int_log10 randint (Some v) dc = raise e) <-> v < 0) /\
  (v < 0 -> __init__ int_log10 randint (Some v) dc = raise NotImplementedError) /\
  (0 <= v -> exists x, __init__ int_log10 randint (Some v) dc = ret x) /\
  ((exists e, add_at self idx amount = raise e) <-> amount < 0) /\
  (amount < 0 -> add_at self idx amount = raise NotImplementedError) /\
  (0 <= amount -> exists self', add_at self idx amount = ret self').
Proof.
  intros Hc Hidx.
  assert (Hneg : v < 0 -> __init__ int_log10 randint (Some v) dc
                          = raise NotImplementedError).
  { intros Hv. unfold __init__. by destruct (Z.ltb_spec v 0); [|lia]. }
  assert (Hpos : 0 <= v -> exists x, __init__ int_log10 randint (Some v) dc = ret x).
  { intros Hv. unfold __init__. destruct (Z.ltb_spec v 0); [lia|].
    destruct (negb (v =? 0)); by eexists. }
  assert (Hok : 0 <= amount -> exists self', add_at self idx amount = ret self').
  { intros Ha. destruct (add_at_ok self idx amount Hc Hidx Ha) as (s & Hs & _). eauto. }
  repeat split; try done.
  - intros [e He]. destruct (Z.lt_ge_cases v 0) as [|Hv]; [done|].
    destruct (Hpos Hv) as [x Hx]. rewrite Hx in He. discriminate.
  - intros Hv. exists NotImplementedError. auto.
  - intros [e He]. destruct (Z.lt_ge_cases amount 0) as [|Ha]; [done|].
    destruct (Hok Ha) as [s Hs]. rewrite Hs in He. discriminate.
  - intros Ha. exists NotImplementedError. by apply add_at_negative.
  - apply add_at_negative.
Qed.

End NativeIntegers.

(** *** The exact logarithm *)

Lemma floor_log10_iter_spec (fuel : nat) (v : Z) :
  0 < v -> Z.log2 v <= Z.of_nat fuel ->
  0 <= floor_log10_iter fuel v /\
  10 ^ floor_log10_iter fuel v <= v < 10 ^ (floor_log10_iter fuel v + 1).
Proof.
  revert v. induction fuel as [|fuel IH]; intros v Hv Hf.
  - assert (v < 2 ^ 1) by (apply Z.log2_lt_pow2; lia). simpl. lia.
  - simpl. destruct (Z.ltb_spec v 10) as [Hlt|Hge]; [simpl; lia|].
    assert (Hq : 0 < v / 10) by (apply Z.div_str_pos; lia).
    pose proof (log2_div10 v Hq) as Hlog.
    destruct (IH (v / 10) Hq ltac:(lia)) as (Hk & Hlo & Hhi).
    set (k := floor_log10_iter fuel (v / 10)) in *.
    replace (1 + k + 1) with (Z.succ (1 + k)) by lia.
    replace (1 + k) with (Z.succ k) in * by lia.
    replace (k + 1) with (Z.succ k) in * by lia.
    rewrite !Z.pow_succ_r in * by lia.
    pose proof (Z.div_mod v 10). pose proof (Z.mod_pos_bound v 10). lia.
Qed.

Lemma floor_log10_spec (v : Z) :
  0 < v -> 10 ^ floor_log10 v <= v < 10 ^ (floor_log10 v + 1).
Proof.
  intros Hv. apply floor_log10_iter_spec; [done|].
  pose proof (Z.log2_nonneg v). lia.
Qed.

(** With the exact logarithm in place of the floating-point one the round
    trip holds for every non-negative integer, and every value constructed
    without truncation is canonical. *)
Lemma exact_log10_roundtrip (randint : Z -> Z -> Z -> Z) (v : Z) :
  0 <= v ->
  exists x, __init__ floor_log10 randint (Some v) None = ret x /\
            __int__ x = ret v /\ canonical x.
Proof.
  intros Hv.
  destruct (init_value floor_log10 randint v Hv) as (x & Hx & Hval & _).
  { intros Hpos. by apply floor_log10_spec. }
  destruct (init_untruncated_canonical floor_log10 randint v None Hv)
    as (x' & Hx' & Hcan); [apply floor_log10_spec|done|].
  rewrite Hx in Hx'. injection Hx' as <-.
  exists x. by rewrite int_value_of, Hval.
Qed.

Lemma int_init_roundtrip_witness :
  0 <= 7006652 /\ (0 < 7006652 -> 7006652 < 10 ^ (floor_log10 7006652 + 1)) /\
  (x <- __init__ floor_log10 (fun _ _ _ => 1) (Some 7006652) None;; __int__ x)
  = ret 7006652.
Proof.
  split; [lia|]. split; [intros _; vm_compute; reflexivity|].
  apply (int_init_roundtrip floor_log10 (fun _ _ _ => 1) 7006652);
    [lia|intros _; vm_compute; reflexivity].
Defined.

Lemma add_correct_witness :
  0 <= 999 /\ 0 <= 1 /\
  (0 < 999 -> 999 < 10 ^ (floor_log10 999 + 1)) /\
  (0 < 1 -> 1 < 10 ^ (floor_log10 1 + 1)) /\
  (x <- __init__ floor_log10 (fun _ _ _ => 1) (Some 999) None;;
   y <- __init__ floor_log10 (fun _ _ _ => 1) (Some 1) None;;
   s <- __add__ x y;;
   __int__ s) = ret (999 + 1).
Proof.
  split; [lia|]. split; [lia|].
  split; [intros _; vm_compute; reflexivity|].
  split; [intros _; vm_compute; reflexivity|].
  apply (add_correct floor_log10 (fun _ _ _ => 1) 999 1);
    [lia|lia|intros _; vm_compute; reflexivity..].
Defined.

Lemma mul_correct_witness :
  0 <= 1234 /\ 0 <= 5678 /\
  (0 < 1234 -> 1234 < 10 ^ (floor_log10 1234 + 1)) /\
  (0 < 5678 -> 5678 < 10 ^ (floor_log10 5678 + 1)) /\
  (x <- __init__ floor_log10 (fun _ _ _ => 1) (Some 1234) None;;
   y <- __init__ floor_log10 (fun _ _ _ => 1) (Some 5678) None;;
   p <- __mul__ x y;;
   __int__ p) = ret (1234 * 5678).
Proof.
  split; [lia|]. split; [lia|].
  split; [intros _; vm_compute; reflexivity|].
  split; [intros _; vm_compute; reflexivity|].
  apply (mul_correct floor_log10 (fun _ _ _ => 1) 1234 5678);
    [lia|lia|intros _; vm_compute; reflexivity..].
Defined.

Lemma canonical_form_derived_witness :
  0 < 100 /\ nonneg_cells [0; 0] /\ nonneg_cells [1] /\
  0 <= 0 /\ 0 <= 1 /\
  (exists c, __init__ floor_log10 (fun _ _ _ => 1) (Some 100) (Some 2) = ret c /\
             last c = Some 0) /\
  (exists s, __add__ [0; 0] [1] = ret s /\ canonical s) /\
  (exists p, __mul__ [0; 0] [1] = ret p /\ canonical p).
Proof.
  assert (Hx : nonneg_cells [0; 0]) by (repeat constructor; lia).
  assert (Hy : nonneg_cells [1]) by (repeat constructor; lia).
  split; [lia|]. split; [done|]. split; [done|].
  split; [lia|]. split; [lia|].
  destruct (canonical_form_derived floor_log10 (fun _ _ _ => 1) 100 (Some 2)
              [0; 0] [1] 0 1 ltac:(lia) Hx Hy ltac:(lia) ltac:(lia))
    as ((c & Hc & _ & Htop & _) & _ & _ & Hadd & Hmul).
  split; [|done].
  exists c. split; [done|]. apply Htop. vm_compute. reflexivity.
Defined.

(** C5 as stated fails: a truncating digit count keeps the low digits of the
    value as they are.  [BigInt(value=100, digit_count=2)] is the store
    [[0, 0]], of length 2 with a zero most significant cell. *)
Lemma canonical_form_counterexample :
  exists c, __init__ floor_log10 (fun _ _ _ => 1) (Some 100) (Some 2) = ret c /\
            (0 < length c)%nat /\ last c = Some 0 /\ ~ canonical c.
Proof.
  exists [0; 0]. split; [reflexivity|]. split; [simpl; lia|].
  split; [reflexivity|]. intros H. by apply (H 0).
Qed.

Lemma invalid_argument_errors_witness :
  nonneg_cells [9; 9] /\ 0 <= 1 /\
  ((exists e, add_at [9; 9] 1 (-5) = raise e) <-> -5 < 0).
Proof.
  assert (Hx : nonneg_cells [9; 9]) by (repeat constructor; lia).
  split; [done|]. split; [lia|].
  apply (invalid_argument_errors floor_log10 (fun _ _ _ => 1) (-3) None [9; 9] 1 (-5));
    (done || lia).
Defined.

(** ** Termination and depth of the carry recursion *)

(** C8. For a non-negative index and amount [add_at] terminates: some
    number [n] of nested calls is needed and suffices, the wrapper's budget
    covers it, and [n] is at most the final digit count.  On a store of
    non-negative cells the run ends by reaching amount 0 and returns. *)
Theorem add_at_terminates (self : BigInt) (idx amount : Z) :
  0 <= idx -> 0 <= amount ->
  exists (n : nat) (r : result BigInt),
    add_at_rec n self idx amount = None /\
    (forall fuel, (n < fuel)%nat -> add_at_rec fuel self idx amount = Some r) /\
    add_at self idx amount = Some r /\
    (forall self', r = Ok self' -> (n <= length self')%nat) /\
    (nonneg_cells self -> exists self', r = Ok self').
Proof.
  intros Hidx Ha.
  destruct (add_at_total self idx amount Hidx) as (r & n & Hadd & Hrun).
  destruct (add_at_run_rec _ _ _ _ _ Hrun Hidx) as [Hnone Hfuel].
  exists n, r. repeat split; try done.
  - intros self' ->. destruct (add_at_run_depth _ _ _ _ _ Hrun Hidx); lia.
  - intros Hc. destruct (add_at_run_nonneg _ _ _ _ _ Hrun Hidx Ha Hc) as (s & -> & _).
    eauto.
Qed.

Lemma add_at_terminates_witness :
  0 <= 0 /\ 0 <= 1 /\
  exists (n : nat) (r : result BigInt),
    add_at_rec n [9; 9] 0 1 = None /\
    (forall fuel, (n < fuel)%nat -> add_at_rec fuel [9; 9] 0 1 = Some r) /\
    add_at [9; 9] 0 1 = Some r /\
    (forall self', r = Ok self' -> (n <= length self')%nat) /\
    (nonneg_cells [9; 9] -> exists self', r = Ok self').
Proof.
  split; [lia|]. split; [lia|]. apply (add_at_terminates [9; 9] 0 1); lia.
Defined.

(** C10. [add_at] keeps a canonical store canonical, and whenever it grows
    the store the cell it leaves at the new highest index is not zero. *)
Theorem add_at_preserves_canonical (self : BigInt) (idx amount : Z) :
  nonneg_cells self -> canonical self -> 0 <= idx -> 0 <= amount ->
  exists self',
    add_at self idx amount = ret self' /\
    canonical self' /\
    ((length self < length self')%nat ->
     exists d, last self' = Some d /\ d <> 0).
Proof.
  intros Hc Hcan Hidx Ha.
  destruct (add_at_ok self idx amount Hc Hidx Ha) as (s & Hs & _ & _ & _ & Hcan').
  exists s. split; [done|]. split; [auto|].
  intros Hlen. destruct (last s) as [d|] eqn:Hd.
  - exists d. split; [done|]. by apply Hcan'.
  - apply last_None in Hd. subst s. simpl in Hlen. lia.
Qed.

Lemma add_at_preserves_canonical_witness :
  nonneg_cells [9; 9] /\ canonical [9; 9] /\ 0 <= 0 /\ 0 <= 1 /\
  exists self',
    add_at [9; 9] 0 1 = ret self' /\
    canonical self' /\
    ((length [9; 9] < length self')%nat ->
     exists d, last self' = Some d /\ d <> 0).
Proof.
  assert (Hx : nonneg_cells [9; 9]) by (repeat constructor; lia).
  assert (Hc : canonical [9; 9]) by (intros d [= <-]; lia).
  split; [done|]. split; [done|]. split; [lia|]. split; [lia|].
  apply (add_at_preserves_canonical [9; 9] 0 1); (done || lia).
Defined.

(** ** Ordering *)

Lemma range_down_S (m : nat) :
  range_down (Z.of_nat (S m) - 1) (-1) = Z.of_nat m :: range_down (Z.of_nat m - 1) (-1).
Proof.
  unfold range_down.
  replace (Z.of_nat (S m) - 1 - -1) with (Z.of_nat (S m)) by lia.
  replace (Z.of_nat m - 1 - -1) with (Z.of_nat m) by lia.
  rewrite seqZ_cons by lia. rewrite fmap_cons. f_equal; [lia|].
  replace (Z.pred (Z.of_nat (S m))) with (Z.of_nat m) by lia.
  change (Z.succ 0) with (1 + 0). rewrite <- fmap_add_seqZ, <- list_fmap_compose.
  apply list_fmap_ext. intros _ k _. simpl. lia.
Qed.

Lemma elem_of_range_down (m : nat) (i : Z) :
  i ∈ range_down (Z.of_nat m - 1) (-1) -> 0 <= i < Z.of_nat m.
Proof.
  unfold range_down. intros H. apply list_elem_of_fmap in H as (k & -> & Hk).
  apply elem_of_seqZ in Hk. lia.
Qed.

Lemma getitem_app_l (l s : list Z) (i : Z) :
  0 <= i < Z.of_nat (length l) -> getitem (l ++ s) i = getitem l i.
Proof.
  intros H. unfold getitem.
  rewrite !index_nonneg by (rewrite ?length_app; lia).
  by rewrite lookup_app_l by lia.
Qed.

Lemma getitem_last (l : list Z) (d : Z) :
  getitem (l ++ [d]) (Z.of_nat (length l)) = ret d.
Proof. apply getitem_mid. Qed.

Lemma gt_loop_ext (idxs : list Z) (x y x' y' : BigInt) (nlt gt : bool) :
  (forall i, i ∈ idxs -> getitem x i = getitem x' i /\ getitem y i = getitem y' i) ->
  gt_loop idxs x y nlt gt = gt_loop idxs x' y' nlt gt.
Proof.
  revert nlt gt. induction idxs as [|i idxs IH]; intros nlt gt H; [done|].
  simpl. destruct (H i) as [-> ->]; [by left|].
  destruct (getitem x' i) as [[d1|e]|]; simpl; [|done|done].
  destruct (getitem y' i) as [[d2|e]|]; simpl; [|done|done].
  destruct ((d2 <? d1) || negb (d2 <=? d1)); [done|].
  apply IH. intros j Hj. apply H. by right.
Qed.

Lemma decides_gt_snoc_gt (x y : list Z) (dx dy : Z) :
  length x = length y -> dy < dx -> decides_gt (x ++ [dx]) (y ++ [dy]) (length x).
Proof.
  intros Hlen Hd. exists dx, dy. split; [by rewrite list_lookup_middle|].
  split; [by rewrite list_lookup_middle|]. split; [done|].
  intros j Hj. rewrite !lookup_ge_None_2; [done|..];
    rewrite length_app; simpl; lia.
Qed.

Lemma decides_gt_snoc_le (x y : list Z) (dx dy : Z) (i : nat) :
  length x = length y -> dx <= dy ->
  decides_gt (x ++ [dx]) (y ++ [dy]) i -> dx = dy /\ decides_gt x y i.
Proof.
  intros Hlen Hd (ex & ey & Hx & Hy & Hlt & Hhigh).
  destruct (Nat.lt_trichotomy i (length x)) as [Hi|[->|Hi]].
  - assert (Heq : dx = dy).
    { specialize (Hhigh (length x) Hi).
      rewrite list_lookup_middle in Hhigh by done.
      rewrite list_lookup_middle in Hhigh by done. by injection Hhigh. }
    split; [done|]. rewrite lookup_app_l in Hx, Hy by lia.
    exists ex, ey. repeat split; try done.
    intros j Hj. specialize (Hhigh j Hj).
    destruct (Nat.lt_ge_cases j (length x)).
    + by rewrite !lookup_app_l in Hhigh by lia.
    + rewrite !lookup_ge_None_2; [done|lia..].
  - rewrite list_lookup_middle in Hx, Hy by done.
    injection Hx as <-. injection Hy as <-. lia.
  - rewrite lookup_ge_None_2 in Hx; [done|]. rewrite length_app. simpl. lia.
Qed.

Lemma decides_gt_snoc_eq (x y : list Z) (d : Z) (i : nat) :
  length x = length y -> decides_gt x y i -> decides_gt (x ++ [d]) (y ++ [d]) i.
Proof.
  intros Hlen (ex & ey & Hx & Hy & Hlt & Hhigh).
  pose proof (lookup_lt_Some _ _ _ Hx) as Hi.
  exists ex, ey. rewrite !lookup_app_l by lia. repeat split; try done.
  intros j Hj. destruct (Nat.lt_trichotomy j (length x)) as [H|[->|H]].
  - rewrite !lookup_app_l by lia. by apply Hhigh.
  - rewrite list_lookup_middle by done. by rewrite list_lookup_middle.
  - rewrite !lookup_ge_None_2; [done|..]; rewrite length_app; simpl; lia.
Qed.

Lemma gt_loop_spec (x y : BigInt) (nlt : bool) :
  length x = length y ->
  exists b, gt_loop (range_down (__len__ x - 1) (-1)) x y nlt false = ret b /\
            (b = true <-> exists i, decides_gt x y i).
Proof.
  revert y nlt. induction x as [|dx x IH] using rev_ind; intros y nlt Hlen.
  - exists false. split; [done|]. split; [done|].
    intros (i & ex & ey & Hx & _). done.
  - destruct y as [|dy y _] using rev_ind.
    { rewrite length_app in Hlen. simpl in Hlen. lia. }
    assert (Hl : length x = length y).
    { rewrite !length_app in Hlen. simpl in Hlen. lia. }
    unfold __len__. rewrite length_app. simpl length.
    replace (length x + 1)%nat with (S (length x)) by lia.
    rewrite range_down_S. simpl gt_loop.
    assert (Hy : getitem (y ++ [dy]) (Z.of_nat (length x)) = ret dy)
      by (rewrite Hl; apply getitem_last).
    rewrite getitem_last, bind_ret, Hy, bind_ret.
    destruct (Z.ltb_spec dy dx) as [Hlt|Hge]; simpl orb; cbv iota.
    + exists true. split; [done|]. split; [|done]. intros _.
      exists (length x). by apply decides_gt_snoc_gt.
    + destruct (Z.leb_spec dy dx) as [Hle|Hgt]; simpl negb; cbv iota.
      * assert (dx = dy) as -> by lia.
        destruct (IH y true Hl) as (b & Hb & Hiff).
        exists b. split.
        -- rewrite <- Hb. apply gt_loop_ext. intros i Hi.
           apply elem_of_range_down in Hi.
           split; apply getitem_app_l; lia.
        -- rewrite Hiff. split; intros [i Hi]; exists i.
           ++ by apply decides_gt_snoc_eq.
           ++ by apply (decides_gt_snoc_le x y dy dy i Hl ltac:(lia)).
      * exists false. split; [done|]. split; [done|]. intros [i Hi].
        apply decides_gt_snoc_le in Hi as [? _]; [lia|done|lia].
Qed.

Lemma gt_characterised (x y : BigInt) :
  exists b, __gt__ x y = ret b /\
    (b = true <->
     (length y < length x)%nat \/
     (length x = length y /\ exists i, decides_gt x y i)) /\
    ((length y < length x)%nat -> b = true) /\
    (x = y -> b = false).
Proof.
  unfold __gt__, __len__.
  destruct (Z.eqb_spec (Z.of_nat (length x)) (Z.of_nat (length y))) as [Heq|Hne];
    simpl negb; cbv iota.
  - assert (Hlen : length x = length y) by lia.
    destruct (gt_loop_spec x y true Hlen) as (b & Hb & Hiff).
    exists b. split; [done|]. split; [|split].
    + rewrite Hiff. split; [intros H; right; by split|].
      intros [H|[_ H]]; [lia|done].
    + lia.
    + intros ->. destruct b; [|done].
      destruct (proj1 Hiff eq_refl) as (i & ex & ey & Hx & Hy & Hlt & _).
      rewrite Hx in Hy. injection Hy as ->. lia.
  - exists (Z.of_nat (length y) <? Z.of_nat (length x)). split; [done|].
    destruct (Z.ltb_spec (Z.of_nat (length y)) (Z.of_nat (length x))).
    + split; [|split]; [split; [intros _; left; lia|done]|done|].
      intros ->. lia.
    + split; [|split]; [split; [done|]|lia|done].
      intros [?|[? _]]; lia.
Qed.

(** C7. [x > y] holds exactly when [x] has more digit cells, or the two have
    equally many and the most significant differing position favours [x].
    In particular a longer store is greater whatever its digits, and two
    stores with the same cells are greater in neither direction. *)
Theorem gt_ordering (x y : BigInt) :
  exists b, __gt__ x y = ret b /\
    (b = true <->
     (length y < length x)%nat \/
     (length x = length y /\ exists i, decides_gt x y i)) /\
    ((length y < length x)%nat -> b = true) /\
    (x = y -> b = false /\ __gt__ y x = ret false).
Proof.
  destruct (gt_characterised x y) as (b & Hb & Hiff & Hlen & Heq).
  exists b. split; [done|]. split; [done|]. split; [done|].
  intros ->. specialize (Heq eq_refl). subst b. done.
Qed.

(** ** String conversion *)

Lemma string_app_nil_r (s : string) : (s ++ "")%string = s.
Proof. induction s as [|c s IH]; [done|]. simpl. by rewrite IH. Qed.

Lemma string_app_assoc (s t u : string) : (s ++ t ++ u)%string = ((s ++ t) ++ u)%string.
Proof. induction s as [|c s IH]; [done|]. simpl. by rewrite IH. Qed.

Lemma length_string_of_list (l : list ascii) :
  String.length (string_of_list_ascii l) = length l.
Proof. induction l as [|c l IH]; [done|]. simpl. by rewrite IH. Qed.

Lemma concat_snoc (l : list string) (s : string) :
  String.concat "" (l ++ [s]) = (String.concat "" l ++ s)%string.
Proof.
  induction l as [|t l IH]; [done|].
  destruct l as [|u l].
  - simpl. done.
  - change ((t :: u :: l) ++ [s]) with (t :: (u :: l) ++ [s]).
    change (String.concat "" (t :: (u :: l) ++ [s]))
      with (t ++ "" ++ String.concat "" ((u :: l) ++ [s]))%string.
    rewrite IH.
    change (String.concat "" (t :: u :: l))
      with (t ++ "" ++ String.concat "" (u :: l))%string.
    simpl. by rewrite string_app_assoc.
Qed.

Lemma str_loop (x : list Z) (acc : string) :
  fold_left (fun s digit => (format_int digit ++ s)%string) x acc
  = (String.concat "" (format_int <$> rev x) ++ acc)%string.
Proof.
  revert acc. induction x as [|d x IH]; intros acc; [done|].
  simpl fold_left. rewrite IH. simpl rev. rewrite fmap_app. simpl fmap.
  by rewrite concat_snoc, <- string_app_assoc.
Qed.

Lemma format_digit (d : Z) : 0 <= d <= 9 -> format_int d = String (digit_char d) "".
Proof.
  intros H.
  assert (d = 0 \/ d = 1 \/ d = 2 \/ d = 3 \/ d = 4 \/ d = 5 \/ d = 6 \/ d = 7
          \/ d = 8 \/ d = 9) as Hd by lia.
  repeat (destruct Hd as [->|Hd]; [reflexivity|]). by subst d.
Qed.

Lemma concat_digits (l : list Z) :
  digit_cells l ->
  String.concat "" (format_int <$> l) = string_of_list_ascii (digit_char <$> l).
Proof.
  induction 1 as [|d l Hd Hl IH]; [done|].
  rewrite !fmap_cons. simpl string_of_list_ascii. rewrite <- IH, (format_digit d Hd).
  destruct l; [done|]. reflexivity.
Qed.

(** C9. The string of a value is the concatenation of its formatted cells
    from the most significant to the least significant with an empty
    separator; for decimal digit cells that is one digit character per cell,
    and the empty store gives the empty string. *)
Theorem str_concatenates (x : BigInt) :
  __str__ x = String.concat "" (format_int <$> rev x) /\
  __str__ [] = EmptyString /\
  (digit_cells x ->
   __str__ x = string_of_list_ascii (digit_char <$> rev x) /\
   String.length (__str__ x) = length x).
Proof.
  assert (H : __str__ x = String.concat "" (format_int <$> rev x)).
  { unfold __str__. rewrite str_loop. apply string_app_nil_r. }
  split; [done|]. split; [done|]. intros Hd.
  assert (H' : __str__ x = string_of_list_ascii (digit_char <$> rev x)).
  { rewrite H. apply concat_digits. unfold digit_cells. by apply Forall_rev. }
  split; [done|].
  by rewrite H', length_string_of_list, length_fmap, length_rev.
Qed.

Lemma str_concatenates_witness :
  digit_cells [4; 3; 2; 1] /\
  __str__ [4; 3; 2; 1] = string_of_list_ascii (digit_char <$> rev [4; 3; 2; 1]) /\
  String.length (__str__ [4; 3; 2; 1]) = length [4; 3; 2; 1].
Proof.
  assert (Hd : digit_cells [4; 3; 2; 1]) by (repeat constructor; lia).
  split; [done|]. by apply (str_concatenates [4; 3; 2; 1]).
Defined.

(** ** Comparison of canonical stores is comparison of values *)

Lemma gt_loop_value (x y : BigInt) (nlt : bool) :
  length x = length y -> digit_cells x -> digit_cells y ->
  gt_loop (range_down (__len__ x - 1) (-1)) x y nlt false
  = ret (value_of y <? value_of x).
Proof.
  revert y nlt. induction x as [|dx x IH] using rev_ind; intros y nlt Hlen Hx Hy.
  - destruct y; [done|]. simpl in Hlen. lia.
  - destruct y as [|dy y _] using rev_ind.
    { rewrite length_app in Hlen. simpl in Hlen. lia. }
    assert (Hl : length x = length y).
    { rewrite !length_app in Hlen. simpl in Hlen. lia. }
    apply Forall_app in Hx as [Hx Hdx]. apply Forall_app in Hy as [Hy Hdy].
    apply Forall_inv in Hdx, Hdy. cbv beta in Hdx, Hdy.
    pose proof (value_of_bound x Hx) as Bx. pose proof (value_of_bound y Hy) as By.
    rewrite <- Hl in By.
    unfold __len__. rewrite length_app. simpl length.
    replace (length x + 1)%nat with (S (length x)) by lia.
    rewrite range_down_S. simpl gt_loop.
    assert (Hgy : getitem (y ++ [dy]) (Z.of_nat (length x)) = ret dy)
      by (rewrite Hl; apply getitem_last).
    rewrite getitem_last, bind_ret, Hgy, bind_ret.
    rewrite !value_of_app, !value_of_cons, !value_of_nil, <- Hl.
    destruct (Z.ltb_spec dy dx) as [Hlt|Hge]; simpl orb; cbv iota.
    + unfold ret. do 2 f_equal. symmetry. apply Z.ltb_lt. nia.
    + destruct (Z.leb_spec dy dx) as [Hle|Hgt]; simpl negb; cbv iota.
      * assert (dx = dy) as -> by lia.
        transitivity (gt_loop (range_down (__len__ x - 1) (-1)) x y true false).
        { apply gt_loop_ext. intros i Hi. apply elem_of_range_down in Hi.
          split; apply getitem_app_l; lia. }
        rewrite (IH y true Hl Hx Hy). unfold ret. do 2 f_equal.
        destruct (Z.ltb_spec (value_of y) (value_of x));
          symmetry; [apply Z.ltb_lt|apply Z.ltb_ge]; lia.
      * unfold ret. do 2 f_equal. symmetry. apply Z.ltb_ge. nia.
Qed.

Lemma canonical_lower_bound (x : BigInt) :
  digit_cells x -> canonical x -> x <> [] ->
  10 ^ (Z.of_nat (length x) - 1) <= value_of x.
Proof.
  intros Hd Hc Hne. destruct x as [|d x _] using rev_ind; [done|].
  apply Forall_app in Hd as [Hx Hd]. apply Forall_inv in Hd.
  cbv beta in Hd. apply canonical_snoc in Hc.
  pose proof (value_of_bound x Hx).
  rewrite value_of_app, value_of_cons, value_of_nil, length_app. simpl length.
  replace (Z.of_nat (length x + 1) - 1) with (Z.of_nat (length x)) by lia.
  assert (0 < 10 ^ Z.of_nat (length x)) by (apply Z.pow_pos_nonneg; lia).
  assert (10 ^ Z.of_nat (length x) * 1 <= 10 ^ Z.of_nat (length x) * (d + 10 * 0))
    by (apply Z.mul_le_mono_nonneg_l; lia).
  lia.
Qed.

Lemma shorter_is_smaller (x y : BigInt) :
  digit_cells x -> digit_cells y -> canonical y ->
  (length x < length y)%nat -> value_of x < value_of y.
Proof.
  intros Hx Hy Hc Hlen.
  pose proof (value_of_bound x Hx) as Bx.
  pose proof (canonical_lower_bound y Hy Hc) as By.
  assert (10 ^ Z.of_nat (length x) <= 10 ^ (Z.of_nat (length y) - 1))
    by (apply Z.pow_le_mono_r; lia).
  destruct y; [simpl in Hlen; lia|]. specialize (By ltac:(done)). lia.
Qed.

Lemma gt_value (x y : BigInt) :
  digit_cells x -> digit_cells y -> canonical x -> canonical y ->
  __gt__ x y = ret (value_of y <? value_of x).
Proof.
  intros Hx Hy Hcx Hcy. unfold __gt__.
  destruct (Nat.lt_trichotomy (length x) (length y)) as [Hlt|[Heq|Hgt]].
  - unfold __len__ at 1 2.
    destruct (Z.eqb_spec (Z.of_nat (length x)) (Z.of_nat (length y))); [lia|].
    simpl negb; cbv iota. unfold ret, __len__. do 2 f_equal.
    pose proof (shorter_is_smaller x y Hx Hy Hcy Hlt).
    destruct (Z.ltb_spec (Z.of_nat (length y)) (Z.of_nat (length x))); [lia|].
    symmetry. apply Z.ltb_ge. lia.
  - unfold __len__ at 1 2.
    destruct (Z.eqb_spec (Z.of_nat (length x)) (Z.of_nat (length y))); [|lia].
    simpl negb; cbv iota. by apply gt_loop_value.
  - unfold __len__ at 1 2.
    destruct (Z.eqb_spec (Z.of_nat (length x)) (Z.of_nat (length y))); [lia|].
    simpl negb; cbv iota. unfold ret, __len__. do 2 f_equal.
    pose proof (shorter_is_smaller y x Hy Hx Hcx Hgt).
    destruct (Z.ltb_spec (Z.of_nat (length y)) (Z.of_nat (length x))); [|lia].
    symmetry. apply Z.ltb_lt. lia.
Qed.

Lemma ge_value (x y : BigInt) :
  digit_cells x -> digit_cells y -> canonical x -> canonical y ->
  __ge__ x y = ret (value_of y <=? value_of x).
Proof.
  intros Hx Hy Hcx Hcy. unfold __ge__, __lt__.
  rewrite gt_value, bind_ret by done. unfold ret. do 2 f_equal.
  destruct (Z.ltb_spec (value_of x) (value_of y));
    destruct (Z.leb_spec (value_of y) (value_of x)); (done || lia).
Qed.

Lemma le_value (x y : BigInt) :
  digit_cells x -> digit_cells y -> canonical x -> canonical y ->
  __le__ x y = ret (value_of x <=? value_of y).
Proof.
  intros Hx Hy Hcx Hcy. unfold __le__.
  rewrite gt_value, bind_ret by done. unfold ret. do 2 f_equal.
  destruct (Z.ltb_spec (value_of y) (value_of x));
    destruct (Z.leb_spec (value_of x) (value_of y)); (done || lia).
Qed.

Lemma same_length_same_value (x y : list Z) :
  length x = length y -> digit_cells x -> digit_cells y ->
  value_of x = value_of y -> x = y.
Proof.
  revert y. induction x as [|dx x IH]; intros [|dy y] Hlen Hx Hy Hv;
    try done.
  apply Forall_cons in Hx as [Hdx Hx]. apply Forall_cons in Hy as [Hdy Hy].
  rewrite !value_of_cons in Hv.
  assert (dx = dy) as -> by lia.
  f_equal. apply IH; [by injection Hlen|done|done|lia].
Qed.

Lemma canonical_unique (x y : BigInt) :
  digit_cells x -> digit_cells y -> canonical x -> canonical y ->
  value_of x = value_of y -> x = y.
Proof.
  intros Hx Hy Hcx Hcy Hv.
  destruct (Nat.lt_trichotomy (length x) (length y)) as [Hlt|[Heq|Hgt]].
  - pose proof (shorter_is_smaller x y Hx Hy Hcy Hlt). lia.
  - by apply same_length_same_value.
  - pose proof (shorter_is_smaller y x Hy Hx Hcx Hgt). lia.
Qed.

(** ** Digit exchanges between two stores *)

Lemma swaps_length (a b c d : list Z) :
  swaps a b c d -> length a = length b /\ length c = length a /\ length d = length b.
Proof. induction 1; simpl; lia. Qed.


Lemma swaps_digit_cells (a b c d : list Z) :
  swaps a b c d -> digit_cells a -> digit_cells b -> digit_cells c /\ digit_cells d.
Proof.
  induction 1 as [|x y a b c d _ IH|x y a b c d _ IH]; intros Ha Hb; [done|..];
    apply Forall_cons in Ha as [Hx Ha]; apply Forall_cons in Hb as [Hy Hb];
    destruct (IH Ha Hb); split; by constructor.
Qed.

Lemma swaps_sum (a b c d : list Z) :
  swaps a b c d -> value_of c + value_of d = value_of a + value_of b.
Proof. induction 1; rewrite ?value_of_cons, ?value_of_nil; lia. Qed.

Lemma swaps_diff (a b c d : list Z) :
  swaps a b c d -> Z.abs (value_of c - value_of d) <= spread a b.
Proof. induction 1; cbn [spread]; rewrite ?value_of_cons, ?value_of_nil; lia. Qed.

Lemma swaps_snoc_keep (a b c d : list Z) (x y : Z) :
  swaps a b c d -> swaps (a ++ [x]) (b ++ [y]) (c ++ [x]) (d ++ [y]).
Proof. induction 1; simpl; repeat constructor; done. Qed.

Lemma swaps_snoc_flip (a b c d : list Z) (x y : Z) :
  swaps a b c d -> swaps (a ++ [x]) (b ++ [y]) (c ++ [y]) (d ++ [x]).
Proof. induction 1; simpl; repeat constructor; done. Qed.

Lemma swaps_snoc_inv (a b c d : list Z) (x y : Z) :
  length a = length b ->
  swaps (a ++ [x]) (b ++ [y]) c d ->
  exists c' d' x' y',
    c = c' ++ [x'] /\ d = d' ++ [y'] /\ swaps a b c' d' /\
    ((x' = x /\ y' = y) \/ (x' = y /\ y' = x)).
Proof.
  revert b c d. induction a as [|h a IH]; intros [|k b] c d Hlen H; try done.
  - inversion H as [|? ? ? ? c0 d0 H0|? ? ? ? c0 d0 H0]; subst;
      inversion H0; subst.
    + exists [], [], x, y. repeat split; auto using swaps_nil.
    + exists [], [], y, x. repeat split; auto using swaps_nil.
  - simpl in H. injection Hlen as Hlen.
    inversion H as [|? ? ? ? c0 d0 H0|? ? ? ? c0 d0 H0]; subst;
      destruct (IH b c0 d0 Hlen H0) as (c' & d' & x' & y' & -> & -> & Hs & Hxy).
    + exists (h :: c'), (k :: d'), x', y'. repeat split; auto using swaps_keep.
    + exists (k :: c'), (h :: d'), x', y'. repeat split; auto using swaps_flip.
Qed.

Lemma spread_snoc (a b : list Z) (x y : Z) :
  length a = length b ->
  spread (a ++ [x]) (b ++ [y]) = spread a b + Z.abs (x - y) * 10 ^ Z.of_nat (length a).
Proof.
  revert b. induction a as [|h a IH]; intros [|k b] Hlen; try done.
  - cbn [spread app length]. replace (10 ^ Z.of_nat 0) with 1 by reflexivity. lia.
  - injection Hlen as Hlen. cbn [spread app]. rewrite (IH b Hlen).
    simpl length. rewrite Nat2Z.inj_succ, Z.pow_succ_r by lia. lia.
Qed.

Lemma spread_bound (a b : list Z) :
  length a = length b -> digit_cells a -> digit_cells b ->
  0 <= spread a b < 10 ^ Z.of_nat (length a).
Proof.
  revert b. induction a as [|h a IH]; intros [|k b] Hlen Ha Hb; try done.
  injection Hlen as Hlen.
  apply Forall_cons in Ha as [Hh Ha]. apply Forall_cons in Hb as [Hk Hb].
  specialize (IH b Hlen Ha Hb). cbn [spread length].
  rewrite Nat2Z.inj_succ, Z.pow_succ_r by lia. lia.
Qed.

(** ** The brute-force search *)

Lemma swap_digits_mid (a1 a2 b1 b2 : list Z) (x y : Z) :
  length a1 = length b1 ->
  swap_digits (a1 ++ x :: a2) (b1 ++ y :: b2) (Z.of_nat (length a1))
  = ret (a1 ++ y :: a2, b1 ++ x :: b2).
Proof.
  intros H. unfold swap_digits.
  rewrite H at 1. rewrite getitem_mid, bind_ret.
  rewrite getitem_mid, bind_ret, setitem_mid, bind_ret.
  rewrite H. by rewrite setitem_mid, bind_ret.
Qed.

Lemma brute_rec_leaf (fuel : nat) (a b : BigInt) (idx : Z) :
  length a = length b -> __len__ a <= idx ->
  brute_rec (S fuel) a b idx
  = (prod <- __mul__ a b;;
     ret (a, b, Extremes (clone a) (clone b) prod (clone a) (clone b) (clone prod))).
Proof.
  intros Hlen Hidx. simpl. unfold __len__ in *.
  destruct (Z.eqb_spec (Z.of_nat (length a)) (Z.of_nat (length b))); [|lia].
  simpl negb. cbv iota.
  by destruct (Z.leb_spec (Z.of_nat (length a)) idx); [|lia].
Qed.

Lemma brute_rec_node (fuel : nat) (a b : BigInt) (idx : Z) :
  length a = length b -> idx < __len__ a ->
  brute_rec (S fuel) a b idx
  = (r1 <- brute_rec fuel a b (idx + 1);;
     let '(a, b, e1) := r1 in
     ab <- swap_digits a b idx;;
     let '(a, b) := ab in
     r2 <- brute_rec fuel a b (idx + 1);;
     let '(a, b, e2) := r2 in
     ab <- swap_digits a b idx;;
     let '(a, b) := ab in
     ge <- __ge__ (p_max e1) (p_max e2);;
     let '(cr_max, dr_max, pr_max) :=
       if ge then (c_max e1, d_max e1, p_max e1)
       else (c_max e2, d_max e2, p_max e2) in
     le <- __le__ (p_min e1) (p_min e2);;
     let '(cr_min, dr_min, pr_min) :=
       if le then (c_min e1, d_min e1, p_min e1)
       else (c_min e2, d_min e2, p_min e2) in
     ret (a, b, Extremes cr_max dr_max pr_max cr_min dr_min pr_min)).
Proof.
  intros Hlen Hidx. simpl. unfold __len__ in *.
  destruct (Z.eqb_spec (Z.of_nat (length a)) (Z.of_nat (length b))); [|lia].
  simpl negb. cbv iota.
  by destruct (Z.leb_spec (Z.of_nat (length a)) idx); [lia|].
Qed.

Lemma brute_rec_spec (a2 : list Z) :
  forall (b2 a1 b1 : list Z),
  length a1 = length b1 -> length a2 = length b2 ->
  digit_cells (a1 ++ a2) -> digit_cells (b1 ++ b2) ->
  exists e,
    brute_rec (S (length a2)) (a1 ++ a2) (b1 ++ b2) (Z.of_nat (length a1))
    = ret (a1 ++ a2, b1 ++ b2, e) /\
    (digit_cells (p_max e) /\ canonical (p_max e)) /\
    (digit_cells (p_min e) /\ canonical (p_min e)) /\
    (exists c d, swaps a2 b2 c d /\
                 value_of (p_max e) = value_of (a1 ++ c) * value_of (b1 ++ d)) /\
    (forall c d, swaps a2 b2 c d ->
                 value_of (a1 ++ c) * value_of (b1 ++ d) <= value_of (p_max e)) /\
    (exists c d, swaps a2 b2 c d /\
                 value_of (p_min e) = value_of (a1 ++ c) * value_of (b1 ++ d)) /\
    (forall c d, swaps a2 b2 c d ->
                 value_of (p_min e) <= value_of (a1 ++ c) * value_of (b1 ++ d)).
Proof.
  induction a2 as [|x a2 IH]; intros [|y b2] a1 b1 Hl1 Hl2 Ha Hb; try done.
  - rewrite !app_nil_r in *.
    rewrite brute_rec_leaf by (done || unfold __len__; lia).
    destruct (mul_spec a1 b1) as (p & Hp & Hv & Hd & Hc);
      [by apply digit_cells_nonneg..|].
    rewrite Hp, bind_ret, !clone_copy. eexists. split; [done|]. simpl.
    split; [done|]. split; [done|].
    split; [exists [], []; rewrite !app_nil_r; split; [constructor|done]|].
    split; [intros c d H; inversion H; subst; rewrite !app_nil_r; lia|].
    split; [exists [], []; rewrite !app_nil_r; split; [constructor|done]|].
    intros c d H; inversion H; subst; rewrite !app_nil_r; lia.
  - injection Hl2 as Hl2.
    assert (Hlen : length (a1 ++ x :: a2) = length (b1 ++ y :: b2))
      by (rewrite !length_app; simpl; lia).
    cbn [length]. rewrite brute_rec_node
      by (done || unfold __len__; rewrite length_app; simpl; lia).
    assert (Hidx : Z.of_nat (length a1) + 1 = Z.of_nat (length (a1 ++ [x])))
      by (rewrite length_app; simpl; lia).
    assert (Hidy : Z.of_nat (length a1) + 1 = Z.of_nat (length (a1 ++ [y])))
      by (rewrite length_app; simpl; lia).
    assert (Hax : forall z l, a1 ++ z :: l = (a1 ++ [z]) ++ l)
      by (intros; by rewrite <- app_assoc).
    assert (Hbx : forall z l, b1 ++ z :: l = (b1 ++ [z]) ++ l)
      by (intros; by rewrite <- app_assoc).
    assert (Hl1' : forall z w, length (a1 ++ [z]) = length (b1 ++ [w]))
      by (intros; rewrite !length_app; simpl; lia).
    assert (Ha' : digit_cells (a1 ++ y :: a2) /\ digit_cells (b1 ++ x :: b2)).
    { apply Forall_app in Ha as [Ha1 Ha2]. apply Forall_cons in Ha2 as [Hx Ha2].
      apply Forall_app in Hb as [Hb1 Hb2]. apply Forall_cons in Hb2 as [Hy Hb2].
      split; apply Forall_app; (split; [done|]); by constructor. }
    destruct Ha' as [Ha' Hb'].
    destruct (IH b2 (a1 ++ [x]) (b1 ++ [y]) (Hl1' x y) Hl2)
      as (e1 & He1 & [Hd1 Hc1] & [Hd1' Hc1'] & Hex1 & Hall1 & Hex1' & Hall1');
      [by rewrite <- Hax|by rewrite <- Hbx|].
    destruct (IH b2 (a1 ++ [y]) (b1 ++ [x]) (Hl1' y x) Hl2)
      as (e2 & He2 & [Hd2 Hc2] & [Hd2' Hc2'] & Hex2 & Hall2 & Hex2' & Hall2');
      [by rewrite <- Hax|by rewrite <- Hbx|].
    rewrite <- Hidx, <- !Hax, <- !Hbx in He1.
    rewrite <- Hidy, <- !Hax, <- !Hbx in He2.
    rewrite He1, bind_ret. cbv beta iota zeta.
    rewrite swap_digits_mid, bind_ret by done. cbv beta iota zeta.
    rewrite He2, bind_ret. cbv beta iota zeta.
    rewrite swap_digits_mid, bind_ret by done. cbv beta iota zeta.
    rewrite ge_value, le_value by done.
    destruct (Z.leb_spec (value_of (p_max e2)) (value_of (p_max e1))) as [Hmax|Hmax];
      destruct (Z.leb_spec (value_of (p_min e1)) (value_of (p_min e2))) as [Hmin|Hmin];
      rewrite !bind_ret; cbv beta iota zeta;
      (eexists; split; [reflexivity|]); simpl p_max; simpl p_min.
    all: split; [done|]; split; [done|].
    all: repeat split.
    all: try (destruct Hex1 as (c & d & Hs & Hv);
              exists (x :: c), (y :: d); split; [by constructor|];
              by rewrite Hax, Hbx).
    all: try (destruct Hex2 as (c & d & Hs & Hv);
              exists (y :: c), (x :: d); split; [by constructor|];
              by rewrite Hax, Hbx).
    all: try (destruct Hex1' as (c & d & Hs & Hv);
              exists (x :: c), (y :: d); split; [by constructor|];
              by rewrite Hax, Hbx).
    all: try (destruct Hex2' as (c & d & Hs & Hv);
              exists (y :: c), (x :: d); split; [by constructor|];
              by rewrite Hax, Hbx).
    all: intros c d H; inversion H as [|? ? ? ? c0 d0 H0|? ? ? ? c0 d0 H0]; subst;
      rewrite Hax, Hbx;
      pose proof (Hall1 c0 d0 H0); pose proof (Hall2 c0 d0 H0);
      pose proof (Hall1' c0 d0 H0); pose proof (Hall2' c0 d0 H0); lia.
Qed.

(** ** The greedy scans *)

Lemma range_down_cons (start stop : Z) :
  stop < start -> range_down start stop = start :: range_down (start - 1) stop.
Proof.
  intros H. unfold range_down. rewrite seqZ_cons by lia. rewrite fmap_cons.
  f_equal; [lia|].
  replace (Z.pred (start - stop)) with (start - 1 - stop) by lia.
  change (Z.succ 0) with (1 + 0). rewrite <- fmap_add_seqZ, <- list_fmap_compose.
  apply list_fmap_ext. intros _ k _. simpl. lia.
Qed.

Lemma range_down_nil (start : Z) : range_down start start = [].
Proof. unfold range_down. by rewrite Z.sub_diag. Qed.

Lemma getitem_from_end (l1 l2 : list Z) (x : Z) :
  getitem (l1 ++ x :: l2) (- Z.of_nat (length l2) - 1) = ret x.
Proof.
  unfold getitem. rewrite index_neg by (rewrite length_app; simpl; lia).
  replace (Z.to_nat _) with (length l1) by (rewrite length_app; simpl; lia).
  by rewrite list_lookup_middle.
Qed.

Lemma setitem_from_end (l1 l2 : list Z) (x y : Z) :
  setitem (l1 ++ x :: l2) (- Z.of_nat (length l2) - 1) y = ret (l1 ++ y :: l2).
Proof.
  unfold setitem. rewrite index_neg by (rewrite length_app; simpl; lia).
  replace (Z.to_nat _) with (length l1) by (rewrite length_app; simpl; lia).
  f_equal. f_equal. rewrite insert_app_r_alt by lia. by rewrite Nat.sub_diag.
Qed.

Lemma swap_digits_from_end (a1 a2 b1 b2 : list Z) (x y : Z) :
  length a2 = length b2 ->
  swap_digits (a1 ++ x :: a2) (b1 ++ y :: b2) (- Z.of_nat (length a2) - 1)
  = ret (a1 ++ y :: a2, b1 ++ x :: b2).
Proof.
  intros H. unfold swap_digits.
  rewrite H at 1. rewrite getitem_from_end, bind_ret.
  rewrite getitem_from_end, bind_ret, setitem_from_end, bind_ret.
  rewrite H. by rewrite setitem_from_end, bind_ret.
Qed.

Lemma max_step_from_end (c1 sc d1 sd : list Z) (x y : Z) (found : bool) :
  length sc = length sd ->
  max_step (- Z.of_nat (length sc) - 1) (c1 ++ x :: sc, d1 ++ y :: sd, found)
  = if (negb found && negb (x =? y) && (x <? y)) || (found && (y <? x))
    then ret (c1 ++ y :: sc, d1 ++ x :: sd, found || negb (y =? x))
    else ret (c1 ++ x :: sc, d1 ++ y :: sd, found || negb (x =? y)).
Proof.
  intros H. unfold max_step.
  assert (Hy : forall z, getitem (d1 ++ z :: sd) (- Z.of_nat (length sc) - 1) = ret z)
    by (intros; rewrite H; apply getitem_from_end).
  rewrite getitem_from_end, bind_ret, Hy, bind_ret. cbv zeta.
  destruct ((negb found && negb (x =? y) && (x <? y)) || (found && (y <? x))).
  - rewrite swap_digits_from_end, bind_ret by done. cbv beta iota.
    by rewrite getitem_from_end, bind_ret, Hy, bind_ret.
  - rewrite bind_ret. cbv beta iota.
    by rewrite getitem_from_end, bind_ret, Hy, bind_ret.
Qed.

Lemma min_step_from_end (c1 sc d1 sd : list Z) (x y : Z) :
  length sc = length sd ->
  min_step (- Z.of_nat (length sc) - 1) (c1 ++ x :: sc, d1 ++ y :: sd)
  = if x <? y then ret (c1 ++ y :: sc, d1 ++ x :: sd)
    else ret (c1 ++ x :: sc, d1 ++ y :: sd).
Proof.
  intros H. unfold min_step.
  assert (Hy : forall z, getitem (d1 ++ z :: sd) (- Z.of_nat (length sc) - 1) = ret z)
    by (intros; rewrite H; apply getitem_from_end).
  rewrite getitem_from_end, bind_ret, Hy, bind_ret.
  destruct (x <? y); [|done]. by rewrite swap_digits_from_end.
Qed.

Lemma max_loop_spec (a : list Z) :
  forall (b sc sd : list Z) (found : bool),
  length a = length b -> length sc = length sd ->
  digit_cells a -> digit_cells b ->
  exists c d found',
    for_in (range_down (- Z.of_nat (length sc) - 1)
                       (- Z.of_nat (length sc) - 1 - Z.of_nat (length a)))
      max_step (a ++ sc, b ++ sd, found)
    = ret (c ++ sc, d ++ sd, found') /\
    swaps a b c d /\
    if found then value_of c - value_of d = - spread a b
    else 0 <= value_of c - value_of d /\
         forall c' d', swaps a b c' d' ->
                       value_of c - value_of d <= Z.abs (value_of c' - value_of d').
Proof.
  induction a as [|x a IH] using rev_ind; intros b sc sd found Hlen Hs Ha Hb.
  - destruct b; [|done]. exists [], [], found. simpl length.
    rewrite Z.sub_0_r, range_down_nil. split; [done|]. split; [constructor|].
    destruct found; [done|]. split; [done|]. intros c' d' H. lia.
  - destruct b as [|y b _] using rev_ind.
    { rewrite length_app in Hlen. simpl in Hlen. lia. }
    assert (Hl : length a = length b).
    { rewrite !length_app in Hlen. simpl in Hlen. lia. }
    apply Forall_app in Ha as [Ha Hx]. apply Forall_app in Hb as [Hb Hy].
    apply Forall_inv in Hx, Hy. cbv beta in Hx, Hy.
    pose proof (spread_bound a b Hl Ha Hb) as Hsp.
    rewrite range_down_cons by (rewrite length_app; simpl; lia).
    rewrite for_in_cons, <- !app_assoc. simpl app.
    rewrite max_step_from_end by done.
    assert (Hstep : forall x' y' f',
      ((x' = x /\ y' = y) \/ (x' = y /\ y' = x)) ->
      (if found return Prop then f' = true /\ x' <= y'
       else (f' = false /\ x = y) \/ (f' = true /\ y' < x')) ->
      exists c d found',
        for_in (range_down (- Z.of_nat (length sc) - 1 - 1)
                  (- Z.of_nat (length sc) - 1 - Z.of_nat (length (a ++ [x]))))
          max_step (a ++ x' :: sc, b ++ y' :: sd, f')
        = ret (c ++ sc, d ++ sd, found') /\
        swaps (a ++ [x]) (b ++ [y]) c d /\
        if found return Prop
        then value_of c - value_of d = - spread (a ++ [x]) (b ++ [y])
        else 0 <= value_of c - value_of d /\
             forall c' d', swaps (a ++ [x]) (b ++ [y]) c' d' ->
               value_of c - value_of d <= Z.abs (value_of c' - value_of d')).
    { intros x' y' f' Hxy Hf.
      destruct (IH b (x' :: sc) (y' :: sd) f' Hl ltac:(simpl; lia) Ha Hb)
        as (c & d & found' & Hrun & Hsw & Hprop).
      exists (c ++ [x']), (d ++ [y']), found'. split; [|split].
      - rewrite <- !app_assoc. simpl app. rewrite <- Hrun. f_equal.
        simpl length. rewrite length_app. simpl length. f_equal; lia.
      - destruct Hxy as [[-> ->]|[-> ->]];
          [by apply swaps_snoc_keep|by apply swaps_snoc_flip].
      - destruct (swaps_length _ _ _ _ Hsw) as (_ & Hlc & Hld).
        rewrite !value_of_app, !value_of_cons, !value_of_nil, Hlc, Hld, <- Hl.
        rewrite spread_snoc by done.
        assert (Hpow : 0 < 10 ^ Z.of_nat (length a)) by (apply Z.pow_pos_nonneg; lia).
        destruct found.
        + destruct Hf as [-> Hle]. destruct Hxy as [[-> ->]|[-> ->]]; nia.
        + destruct Hf as [[-> Heq]|[-> Hlt]].
          * subst y. destruct Hprop as [Hpos Hmin].
            assert (x' = y') as -> by (destruct Hxy as [[-> ->]|[-> ->]]; done).
            split; [lia|]. intros c' d' H'.
            apply swaps_snoc_inv in H' as (c0 & d0 & x0 & y0 & -> & -> & H0 & Hxy0);
              [|done].
            destruct (swaps_length _ _ _ _ H0) as (_ & Hlc0 & Hld0).
            rewrite !value_of_app, !value_of_cons, !value_of_nil, Hlc0, Hld0, <- Hl.
            specialize (Hmin c0 d0 H0).
            assert (x0 = y0) as -> by (destruct Hxy0 as [[-> ->]|[-> ->]]; done).
            lia.
          * assert (Hd : Z.abs (x - y) = x' - y')
              by (destruct Hxy as [[-> ->]|[-> ->]]; lia).
            split; [nia|]. intros c' d' H'.
            apply swaps_snoc_inv in H' as (c0 & d0 & x0 & y0 & -> & -> & H0 & Hxy0);
              [|done].
            destruct (swaps_length _ _ _ _ H0) as (_ & Hlc0 & Hld0).
            rewrite !value_of_app, !value_of_cons, !value_of_nil, Hlc0, Hld0, <- Hl.
            pose proof (swaps_diff _ _ _ _ H0) as Hb0.
            assert (Hd0 : x0 - y0 = x' - y' \/ x0 - y0 = - (x' - y'))
              by (destruct Hxy as [[-> ->]|[-> ->]];
                  destruct Hxy0 as [[-> ->]|[-> ->]]; lia).
            destruct Hd0 as [Hd0|Hd0]; nia. }
    destruct found; simpl negb; simpl andb; simpl orb.
    + destruct (Z.ltb_spec y x).
      * apply (Hstep y x true); [auto|]. split; [done|lia].
      * apply (Hstep x y true); [auto|]. split; [done|lia].
    + destruct (Z.eqb_spec x y) as [->|Hne]; simpl negb; simpl andb.
      * rewrite Z.eqb_refl. simpl negb.
        apply (Hstep y y false); [auto|]. left. done.
      * destruct (Z.ltb_spec x y).
        -- destruct (Z.eqb_spec y x); [lia|]. simpl negb.
           apply (Hstep y x true); [auto|]. right. split; [done|lia].
        -- apply (Hstep x y true); [auto|]. right. split; [done|lia].
Qed.

Lemma min_loop_spec (a : list Z) :
  forall (b sc sd : list Z),
  length a = length b -> length sc = length sd ->
  exists c d,
    for_in (range_down (- Z.of_nat (length sc) - 1)
                       (- Z.of_nat (length sc) - 1 - Z.of_nat (length a)))
      min_step (a ++ sc, b ++ sd)
    = ret (c ++ sc, d ++ sd) /\
    swaps a b c d /\
    value_of c - value_of d = spread a b.
Proof.
  induction a as [|x a IH] using rev_ind; intros b sc sd Hlen Hs.
  - destruct b; [|done]. exists [], []. simpl length.
    rewrite Z.sub_0_r, range_down_nil. split; [done|]. split; [constructor|done].
  - destruct b as [|y b _] using rev_ind.
    { rewrite length_app in Hlen. simpl in Hlen. lia. }
    assert (Hl : length a = length b).
    { rewrite !length_app in Hlen. simpl in Hlen. lia. }
    rewrite range_down_cons by (rewrite length_app; simpl; lia).
    rewrite for_in_cons, <- !app_assoc. simpl app.
    rewrite min_step_from_end by done.
    assert (Hstep : forall x' y',
      ((x' = x /\ y' = y) \/ (x' = y /\ y' = x)) -> y' <= x' ->
      exists c d,
        for_in (range_down (- Z.of_nat (length sc) - 1 - 1)
                  (- Z.of_nat (length sc) - 1 - Z.of_nat (length (a ++ [x]))))
          min_step (a ++ x' :: sc, b ++ y' :: sd)
        = ret (c ++ sc, d ++ sd) /\
        swaps (a ++ [x]) (b ++ [y]) c d /\
        value_of c - value_of d = spread (a ++ [x]) (b ++ [y])).
    { intros x' y' Hxy Hle.
      destruct (IH b (x' :: sc) (y' :: sd) Hl ltac:(simpl; lia))
        as (c & d & Hrun & Hsw & Hprop).
      exists (c ++ [x']), (d ++ [y']). split; [|split].
      - rewrite <- !app_assoc. simpl app. rewrite <- Hrun. f_equal.
        simpl length. rewrite length_app. simpl length. f_equal; lia.
      - destruct Hxy as [[-> ->]|[-> ->]];
          [by apply swaps_snoc_keep|by apply swaps_snoc_flip].
      - destruct (swaps_length _ _ _ _ Hsw) as (_ & Hlc & Hld).
        rewrite !value_of_app, !value_of_cons, !value_of_nil, Hlc, Hld, <- Hl.
        rewrite spread_snoc by done.
        destruct Hxy as [[-> ->]|[-> ->]]; nia. }
    destruct (Z.ltb_spec x y); rewrite bind_ret.
    + apply (Hstep y x); [auto|lia].
    + apply (Hstep x y); [auto|lia].
Qed.

(** With the sum fixed, the product grows as the difference shrinks. *)
Lemma product_by_difference (c d c' d' : Z) :
  c + d = c' + d' ->
  Z.abs (c - d) <= Z.abs (c' - d') ->
  c' * d' <= c * d.
Proof. intros Hsum Hdiff. nia. Qed.

Lemma eq_loop_refl (idxs : list Z) (x : BigInt) (b : bool) :
  (forall i, i ∈ idxs -> 0 <= i < __len__ x) ->
  eq_loop idxs x x b = ret (match idxs with [] => b | _ => true end).
Proof.
  revert b. induction idxs as [|i idxs IH]; intros b H; [done|].
  simpl. destruct (H i ltac:(by left)) as [Hi1 Hi2]. unfold __len__ in Hi2.
  replace i with (Z.of_nat (Z.to_nat i)) by lia.
  rewrite getitem_nth, !bind_ret by lia. rewrite Z.eqb_refl. simpl negb. cbv iota.
  rewrite IH by (intros j Hj; apply H; by right). by destruct idxs.
Qed.

Lemma eq_refl_true (x : BigInt) : __eq__ x x = ret true.
Proof.
  unfold __eq__. rewrite Z.eqb_refl. simpl negb. cbv iota.
  rewrite eq_loop_refl.
  - by destruct (range (__len__ x)).
  - intros i Hi. unfold range in Hi. apply elem_of_seqZ in Hi. lia.
Qed.

(** ** The greedy solvers against the brute-force search *)

(** C3. For stores [a] and [b] of equal length holding decimal digits (of
    any length, so in particular up to 12), the product returned by
    [calc_max_product] is the maximum product returned by
    [calc_extreme_products_brute], the product returned by
    [calc_min_product] is its minimum product, and the search leaves [a] and
    [b] as it found them. *)
Theorem greedy_matches_brute (a b : BigInt) :
  length a = length b -> digit_cells a -> digit_cells b ->
  exists e c1 d1 p1 c2 d2 p2,
    calc_extreme_products_brute a b 0 = ret (a, b, e) /\
    calc_max_product a b = ret (c1, d1, p1) /\
    calc_min_product a b = ret (c2, d2, p2) /\
    p1 = p_max e /\ p2 = p_min e /\
    __eq__ p1 (p_max e) = ret true /\ __eq__ p2 (p_min e) = ret true.
Proof.
  intros Hlen Ha Hb.
  destruct (brute_rec_spec a b [] [] eq_refl Hlen Ha Hb)
    as (e & He & [Hdmax Hcmax] & [Hdmin Hcmin] & Hexmax & Hallmax & Hexmin & Hallmin).
  simpl app in *. simpl length in He.
  destruct (max_loop_spec a b [] [] false Hlen eq_refl Ha Hb)
    as (c1 & d1 & f & Hmax & Hs1 & Hpos1 & Hopt1).
  destruct (min_loop_spec a b [] [] Hlen eq_refl)
    as (c2 & d2 & Hmin & Hs2 & Hopt2).
  rewrite !app_nil_r in *. simpl length in Hmax, Hmin.
  change (- Z.of_nat 0 - 1) with (-1) in Hmax, Hmin.
  destruct (swaps_digit_cells _ _ _ _ Hs1 Ha Hb) as [Hc1 Hd1].
  destruct (swaps_digit_cells _ _ _ _ Hs2 Ha Hb) as [Hc2 Hd2].
  destruct (mul_spec c1 d1) as (p1 & Hp1 & Hv1 & Hdp1 & Hcp1);
    [by apply digit_cells_nonneg..|].
  destruct (mul_spec c2 d2) as (p2 & Hp2 & Hv2 & Hdp2 & Hcp2);
    [by apply digit_cells_nonneg..|].
  assert (E1 : p1 = p_max e).
  { apply canonical_unique; try done.
    destruct Hexmax as (c & d & Hs & Hv). rewrite Hv, Hv1.
    apply Z.le_antisymm.
    - rewrite <- Hv. by apply Hallmax.
    - apply product_by_difference.
      + rewrite (swaps_sum _ _ _ _ Hs1), (swaps_sum _ _ _ _ Hs). done.
      + specialize (Hopt1 c d Hs). lia. }
  assert (E2 : p2 = p_min e).
  { apply canonical_unique; try done.
    destruct Hexmin as (c & d & Hs & Hv). rewrite Hv, Hv2.
    apply Z.le_antisymm.
    - apply product_by_difference.
      + rewrite (swaps_sum _ _ _ _ Hs2), (swaps_sum _ _ _ _ Hs). done.
      + pose proof (swaps_diff _ _ _ _ Hs). pose proof (swaps_diff _ _ _ _ Hs2). lia.
    - rewrite <- Hv. by apply Hallmin. }
  exists e, c1, d1, p1, c2, d2, p2.
  split.
  { unfold calc_extreme_products_brute, __len__.
    replace (Z.to_nat (Z.of_nat (length a) - 0)) with (length a) by lia. exact He. }
  split.
  { unfold calc_max_product, __len__.
    destruct (Z.eqb_spec (Z.of_nat (length a)) (Z.of_nat (length b))); [|lia].
    simpl negb. cbv iota zeta. rewrite !clone_copy.
    replace (- Z.of_nat (length a) - 1) with (-1 - Z.of_nat (length a)) by lia.
    unfold BigInt in *. rewrite Hmax, bind_ret. cbv beta iota.
    by rewrite Hp1, bind_ret. }
  split.
  { unfold calc_min_product, __len__.
    destruct (Z.eqb_spec (Z.of_nat (length a)) (Z.of_nat (length b))); [|lia].
    simpl negb. cbv iota zeta. rewrite !clone_copy.
    replace (- Z.of_nat (length a) - 1) with (-1 - Z.of_nat (length a)) by lia.
    unfold BigInt in *. rewrite Hmin, bind_ret. cbv beta iota.
    by rewrite Hp2, bind_ret. }
  split; [done|]. split; [done|].
  rewrite E1, E2. split; apply eq_refl_true.
Qed.

Lemma greedy_matches_brute_witness :
  length [4; 3; 2; 1] = length [8; 7; 6; 5] /\
  digit_cells [4; 3; 2; 1] /\ digit_cells [8; 7; 6; 5] /\
  exists e c1 d1 p1 c2 d2 p2,
    calc_extreme_products_brute [4; 3; 2; 1] [8; 7; 6; 5] 0
    = ret ([4; 3; 2; 1], [8; 7; 6; 5], e) /\
    calc_max_product [4; 3; 2; 1] [8; 7; 6; 5] = ret (c1, d1, p1) /\
    calc_min_product [4; 3; 2; 1] [8; 7; 6; 5] = ret (c2, d2, p2) /\
    p1 = p_max e /\ p2 = p_min e /\
    __eq__ p1 (p_max e) = ret true /\ __eq__ p2 (p_min e) = ret true.
Proof.
  assert (Ha : digit_cells [4; 3; 2; 1]) by (repeat constructor; lia).
  assert (Hb : digit_cells [8; 7; 6; 5]) by (repeat constructor; lia).
  split; [reflexivity|]. split; [done|]. split; [done|].
  by apply (greedy_matches_brute [4; 3; 2; 1] [8; 7; 6; 5]).
Defined.

(** * Further properties of the two source files *)

(** ** Equality and the derived orderings *)

Lemma eq_loop_spec (x2 : list Z) :
  forall (y2 p q : list Z) (b : bool),
  length p = length q -> length x2 = length y2 ->
  eq_loop (seqZ (Z.of_nat (length p)) (Z.of_nat (length x2))) (p ++ x2) (q ++ y2) b
  = ret (match x2 with [] => b | _ => bool_decide (x2 = y2) end).
Proof.
  induction x2 as [|d x2 IH]; intros [|e y2] p q b Hp Hl; try done.
  injection Hl as Hl. simpl length. rewrite seqZ_cons by lia. simpl eq_loop.
  assert (Hq : getitem (q ++ e :: y2) (Z.of_nat (length p)) = ret e)
    by (rewrite Hp; apply getitem_mid).
  rewrite getitem_mid, bind_ret, Hq, bind_ret.
  destruct (Z.eqb_spec d e) as [->|Hne]; simpl negb; cbv iota.
  - replace (Z.succ (Z.of_nat (length p))) with (Z.of_nat (length (p ++ [e])))
      by (rewrite length_app; simpl; lia).
    replace (Z.pred (Z.of_nat (S (length x2)))) with (Z.of_nat (length x2)) by lia.
    replace (p ++ e :: x2) with ((p ++ [e]) ++ x2) by (by rewrite <- app_assoc).
    replace (q ++ e :: y2) with ((q ++ [e]) ++ y2) by (by rewrite <- app_assoc).
    rewrite IH by (rewrite ?length_app; simpl; lia).
    unfold ret. do 2 f_equal. destruct x2 as [|d' x2].
    + destruct y2; [|done]. symmetry. by apply bool_decide_eq_true.
    + apply bool_decide_ext. split; [by intros ->|]. by intros [= ->].
  - unfold ret. do 2 f_equal. symmetry. apply bool_decide_eq_false.
    by intros [= ? _].
Qed.

Lemma eq_decides (x y : BigInt) : __eq__ x y = ret (bool_decide (x = y)).
Proof.
  unfold __eq__, __len__.
  destruct (Z.eqb_spec (Z.of_nat (length x)) (Z.of_nat (length y))) as [Hl|Hl];
    simpl negb; cbv iota.
  - pose proof (eq_loop_spec x y [] [] true eq_refl ltac:(lia)) as H.
    simpl length in H. simpl app in H. change (Z.of_nat 0) with 0 in H.
    unfold range. rewrite H.
    unfold ret. do 2 f_equal. destruct x; [|done].
    destruct y; [|done]. symmetry. by apply bool_decide_eq_true.
  - unfold ret. do 2 f_equal. symmetry. apply bool_decide_eq_false.
    intros ->. lia.
Qed.

Lemma decides_gt_exclusive (x y : list Z) (i j : nat) :
  decides_gt x y i -> decides_gt y x j -> False.
Proof.
  intros (dx & dy & Hx & Hy & Hlt & Hhi) (ey & ex & Hy' & Hx' & Hlt' & Hhi').
  destruct (Nat.lt_trichotomy i j) as [H|[->|H]].
  - rewrite (Hhi j H), Hy' in Hx'. injection Hx' as ->. lia.
  - rewrite Hx in Hx'. rewrite Hy in Hy'. injection Hx' as ->. injection Hy' as ->. lia.
  - rewrite (Hhi' i H), Hx in Hy. injection Hy as ->. lia.
Qed.

Lemma decides_gt_irrefl (x : list Z) (i : nat) : ~ decides_gt x x i.
Proof. intros H. exact (decides_gt_exclusive x x i i H H). Qed.

Lemma decides_trichotomy (x y : list Z) :
  length x = length y ->
  x = y \/ (exists i, decides_gt x y i) \/ (exists i, decides_gt y x i).
Proof.
  revert y. induction x as [|dx x IH] using rev_ind; intros y Hlen.
  - destruct y; [by left|done].
  - destruct y as [|dy y _] using rev_ind.
    { rewrite length_app in Hlen. simpl in Hlen. lia. }
    assert (Hl : length x = length y).
    { rewrite !length_app in Hlen. simpl in Hlen. lia. }
    destruct (Z.lt_trichotomy dx dy) as [Hlt|[->|Hgt]].
    + right. right. exists (length y). by apply decides_gt_snoc_gt.
    + destruct (IH y Hl) as [->|[[i Hi]|[i Hi]]].
      * by left.
      * right. left. exists i. by apply decides_gt_snoc_eq.
      * right. right. exists i. by apply decides_gt_snoc_eq.
    + right. left. exists (length x). apply decides_gt_snoc_gt; [done|lia].
Qed.

(** What the three comparisons return, side by side. *)
Lemma comparisons (x y : BigInt) :
  exists gt lt,
    __gt__ x y = ret gt /\ __lt__ x y = ret lt /\
    __eq__ x y = ret (bool_decide (x = y)) /\
    (gt = true \/ lt = true \/ x = y) /\
    (gt = true -> lt = false /\ x <> y) /\
    (lt = true -> gt = false /\ x <> y).
Proof.
  destruct (gt_characterised x y) as (gt & Hgt & Hiff & _ & Heq).
  destruct (gt_characterised y x) as (lt & Hlt & Hiff' & _ & Heq').
  exists gt, lt. split; [done|]. split; [done|]. split; [apply eq_decides|].
  assert (Hex : gt = true -> lt = true -> False).
  { intros Hg Hl. apply Hiff in Hg. apply Hiff' in Hl.
    destruct Hg as [Hg|[Hg [i Hi]]], Hl as [Hl|[Hl [j Hj]]]; try lia.
    exact (decides_gt_exclusive _ _ _ _ Hi Hj). }
  split; [|split].
  - destruct (Nat.lt_trichotomy (length x) (length y)) as [H|[H|H]].
    + right. left. apply Hiff'. by left.
    + destruct (decides_trichotomy x y H) as [?|[Hi|Hi]]; [auto|..].
      * left. apply Hiff. right. done.
      * right. left. apply Hiff'. right. done.
    + left. apply Hiff. by left.
  - intros Hg. split.
    + destruct lt; [|done]. by destruct (Hex Hg eq_refl).
    + intros ->. specialize (Heq eq_refl). congruence.
  - intros Hl. split.
    + destruct gt; [|done]. by destruct (Hex eq_refl Hl).
    + intros ->. specialize (Heq' eq_refl). congruence.
Qed.

(** X1. [x == y] always returns, and returns [True] exactly when the two
    stores hold the same cells; no normalisation takes place, so stores of
    different lengths are never equal. *)
Theorem eq_same_cells (x y : BigInt) :
  exists b, __eq__ x y = ret b /\
            (b = true <-> x = y) /\
            (length x <> length y -> b = false).
Proof.
  exists (bool_decide (x = y)). split; [apply eq_decides|]. split.
  - apply bool_decide_eq_true.
  - intros H. apply bool_decide_eq_false. by intros ->.
Qed.

(** X2. Trichotomy: for any two stores exactly one of [x > y], [x == y] and
    [x < y] holds (the last one through the reflected [__gt__]). *)
Theorem ordering_trichotomy (x y : BigInt) :
  exists gt eq lt,
    __gt__ x y = ret gt /\ __eq__ x y = ret eq /\ __lt__ x y = ret lt /\
    ((gt = true /\ eq = false /\ lt = false) \/
     (gt = false /\ eq = true /\ lt = false) \/
     (gt = false /\ eq = false /\ lt = true)).
Proof.
  destruct (comparisons x y) as (gt & lt & Hgt & Hlt & Heq & Hone & Hg & Hl).
  exists gt, (bool_decide (x = y)), lt. repeat (split; [done|]).
  destruct gt, lt.
  - destruct (Hg eq_refl) as [? _]. done.
  - left. destruct (Hg eq_refl) as [_ Hne]. by rewrite bool_decide_eq_false_2.
  - right. right. destruct (Hl eq_refl) as [_ Hne]. by rewrite bool_decide_eq_false_2.
  - right. left. destruct Hone as [?|[?| ->]]; try done.
    by rewrite bool_decide_eq_true_2.
Qed.

(** X3. The derived relations: [x >= y] holds exactly when [x > y] or
    [x == y], and [x <= y] exactly when [x < y] or [x == y]. *)
Theorem ge_le_derived (x y : BigInt) :
  exists gt eq lt,
    __gt__ x y = ret gt /\ __eq__ x y = ret eq /\ __lt__ x y = ret lt /\
    __ge__ x y = ret (gt || eq) /\ __le__ x y = ret (lt || eq).
Proof.
  destruct (comparisons x y) as (gt & lt & Hgt & Hlt & Heq & Hone & Hg & Hl).
  exists gt, (bool_decide (x = y)), lt. repeat (split; [done|]).
  unfold __ge__, __le__. rewrite Hlt, Hgt, !bind_ret. unfold ret.
  destruct gt, lt; simpl.
  - destruct (Hg eq_refl) as [? _]. done.
  - destruct (Hg eq_refl) as [_ Hne]. by rewrite bool_decide_eq_false_2.
  - destruct (Hl eq_refl) as [_ Hne]. by rewrite bool_decide_eq_false_2.
  - destruct Hone as [?|[?| ->]]; try done. by rewrite bool_decide_eq_true_2.
Qed.

Lemma decides_gt_trans (x y z : list Z) (i j : nat) :
  decides_gt x y i -> decides_gt y z j -> exists k, decides_gt x z k.
Proof.
  intros (dx & dy & Hx & Hy & Hlt & Hhi) (ey & ez & Hy' & Hz & Hlt' & Hhi').
  destruct (Nat.lt_trichotomy i j) as [H|[->|H]].
  - exists j, ey, ez. rewrite (Hhi j H). repeat split; try done.
    intros k Hk. rewrite (Hhi k) by lia. by apply Hhi'.
  - exists j, dx, ez. rewrite Hy in Hy'. injection Hy' as ->.
    repeat split; try done; [lia|].
    intros k Hk. rewrite (Hhi k) by lia. by apply Hhi'.
  - exists i, dx, dy. rewrite <- (Hhi' i H). repeat split; try done.
    intros k Hk. rewrite (Hhi k) by lia. apply Hhi'. lia.
Qed.

(** X4. [>] is a strict order on stores: it is transitive, and never holds
    in both directions. *)
Theorem gt_strict_order (x y z : BigInt) :
  (__gt__ x y = ret true -> __gt__ y z = ret true -> __gt__ x z = ret true) /\
  (__gt__ x y = ret true -> __gt__ y x = ret false).
Proof.
  destruct (gt_characterised x y) as (b1 & H1 & Hiff1 & _).
  destruct (gt_characterised y z) as (b2 & H2 & Hiff2 & _).
  destruct (gt_characterised x z) as (b3 & H3 & Hiff3 & _).
  split.
  - rewrite H1, H2, H3. intros [= ->] [= ->]. f_equal. f_equal.
    apply Hiff3. destruct (proj1 Hiff1 eq_refl) as [Hl1|[Hl1 [i Hi]]];
      destruct (proj1 Hiff2 eq_refl) as [Hl2|[Hl2 [j Hj]]].
    + left. lia.
    + left. lia.
    + left. lia.
    + right. split; [lia|]. by eapply decides_gt_trans.
  - intros Hg. destruct (comparisons x y) as (gt & lt & Hgt & Hlt & _ & _ & Hgl & _).
    rewrite Hgt in Hg. injection Hg as ->. destruct (Hgl eq_refl) as [-> _].
    exact Hlt.
Qed.

Lemma gt_strict_order_witness :
  __gt__ [1; 2; 3] [9; 9] = ret true /\ __gt__ [9; 9] [9; 8] = ret true /\
  __gt__ [1; 2; 3] [9; 8] = ret true.
Proof.
  split; [reflexivity|]. split; [reflexivity|].
  apply (gt_strict_order [1; 2; 3] [9; 9] [9; 8]); reflexivity.
Defined.

(** X5. On canonical stores of decimal digits every comparison agrees with
    the comparison of the integers the stores convert to. *)
Theorem comparisons_agree_with_int (x y : BigInt) (vx vy : Z) :
  digit_cells x -> digit_cells y -> canonical x -> canonical y ->
  __int__ x = ret vx -> __int__ y = ret vy ->
  __gt__ x y = ret (vy <? vx) /\
  __lt__ x y = ret (vx <? vy) /\
  __ge__ x y = ret (vy <=? vx) /\
  __le__ x y = ret (vx <=? vy) /\
  __eq__ x y = ret (vx =? vy).
Proof.
  intros Hx Hy Hcx Hcy Hvx Hvy.
  rewrite int_value_of in Hvx, Hvy. injection Hvx as <-. injection Hvy as <-.
  split; [by apply gt_value|]. split; [by apply gt_value|].
  split; [by apply ge_value|]. split; [by apply le_value|].
  rewrite eq_decides. unfold ret. do 2 f_equal.
  destruct (Z.eqb_spec (value_of x) (value_of y)) as [He|Hne].
  - apply bool_decide_eq_true. by apply canonical_unique.
  - apply bool_decide_eq_false. by intros ->.
Qed.

Lemma comparisons_agree_with_int_witness :
  digit_cells [4; 3; 2; 1] /\ digit_cells [8; 7] /\
  canonical [4; 3; 2; 1] /\ canonical [8; 7] /\
  __int__ [4; 3; 2; 1] = ret 1234 /\ __int__ [8; 7] = ret 78 /\
  __gt__ [4; 3; 2; 1] [8; 7] = ret (78 <? 1234).
Proof.
  assert (Hx : digit_cells [4; 3; 2; 1]) by (repeat constructor; lia).
  assert (Hy : digit_cells [8; 7]) by (repeat constructor; lia).
  assert (Hcx : canonical [4; 3; 2; 1]) by (intros d [= <-]; lia).
  assert (Hcy : canonical [8; 7]) by (intros d [= <-]; lia).
  repeat (split; [done|]).
  by apply (comparisons_agree_with_int [4; 3; 2; 1] [8; 7] 1234 78).
Defined.

(** ** The constructor's other paths, cloning and the size of a value *)

Lemma for_in_append {A : Type} (f : Z -> A) (xs : list Z) (acc : list A) :
  for_in xs (fun i ds => ret (ds ++ [f i])) acc = ret (acc ++ (f <$> xs)).
Proof.
  revert acc. induction xs as [|x xs IH]; intros acc.
  - simpl. by rewrite app_nil_r.
  - rewrite for_in_cons, bind_ret, IH, fmap_cons. by rewrite <- app_assoc.
Qed.

Lemma init_random (int_log10 : Z -> Z) (randint : Z -> Z -> Z -> Z) (n : Z) :
  (forall i lo hi, lo <= hi -> lo <= randint i lo hi <= hi) ->
  exists x, __init__ int_log10 randint None (Some n) = ret x /\
            length x = Z.to_nat n /\ digit_cells x /\ canonical x.
Proof.
  intros Hr. unfold __init__, range. rewrite for_in_append.
  simpl app.
  eexists. split; [done|]. split; [|split].
  - by rewrite length_fmap, length_seqZ.
  - apply Forall_fmap, Forall_seqZ. intros i Hi. simpl.
    destruct (i <? n - 1); [pose proof (Hr i 0 9)|pose proof (Hr i 1 9)]; lia.
  - intros d Hd. rewrite fmap_last in Hd.
    destruct (last (seqZ 0 n)) as [i|] eqn:Hl; [|done]. injection Hd as <-.
    rewrite last_lookup, length_seqZ in Hl. apply lookup_seqZ in Hl as [-> Hl].
    destruct (Z.ltb_spec (0 + Z.of_nat (Nat.pred (Z.to_nat n))) (n - 1)); [lia|].
    pose proof (Hr (0 + Z.of_nat (Nat.pred (Z.to_nat n))) 1 9). lia.
Qed.

(** X6. The random constructor [BigInt(digit_count=n)] stores exactly [n]
    cells (none for [n <= 0]); when [randint] keeps to its bounds they are
    decimal digits and the most significant one is not zero.  Without a
    value and without a digit count the constructor raises ValueError. *)
Theorem random_construction (int_log10 : Z -> Z) (randint : Z -> Z -> Z -> Z)
    (n : Z) :
  (forall i lo hi, lo <= hi -> lo <= randint i lo hi <= hi) ->
  (exists x, __init__ int_log10 randint None (Some n) = ret x /\
             length x = Z.to_nat n /\ digit_cells x /\ canonical x) /\
  __init__ int_log10 randint None None = raise ValueError.
Proof. intros Hr. split; [by apply init_random|done]. Qed.

Lemma random_construction_witness :
  (forall i lo hi : Z, lo <= hi -> lo <= (fun _ lo _ => lo) i lo hi <= hi) /\
  exists x, __init__ floor_log10 (fun _ lo _ => lo) None (Some 4) = ret x /\
            length x = Z.to_nat 4 /\ digit_cells x /\ canonical x.
Proof.
  split; [intros; simpl; lia|].
  apply (random_construction floor_log10 (fun _ lo _ => lo) 4). intros; simpl; lia.
Defined.

(** X7. With a digit count [dc >= 0] the constructor keeps the [dc] least
    significant digits: the result converts back to [v mod 10^dc], has at
    most [dc] cells, all of them decimal digits (the logarithm not falling
    short of the digits of [v]).  A negative digit count gives the empty
    store. *)
Theorem truncated_construction (int_log10 : Z -> Z) (randint : Z -> Z -> Z -> Z)
    (v dc : Z) :
  0 <= v -> (0 < v -> v < 10 ^ (int_log10 v + 1)) ->
  exists x, __init__ int_log10 randint (Some v) (Some dc) = ret x /\
            digit_cells x /\
            (0 <= dc -> __int__ x = ret (v mod 10 ^ dc) /\ Z.of_nat (length x) <= dc) /\
            (dc <= 0 -> x = []).
Proof.
  intros Hv Hlog. destruct (Z.eq_dec v 0) as [->|Hne].
  - exists []. split; [apply init_zero|]. split; [constructor|]. split; [|done].
    intros Hdc. rewrite Z.mod_0_l by (apply Z.pow_nonzero; lia).
    split; [done|simpl; lia].
  - rewrite init_positive by lia. eexists. split; [done|].
    split; [apply digit_cells_take_digits|].
    assert (Hk : 0 <= int_log10 v + 1).
    { destruct (Z.lt_ge_cases (int_log10 v + 1) 0) as [Hneg|]; [|done].
      rewrite Z.pow_neg_r in Hlog by done. lia. }
    specialize (Hlog ltac:(lia)). split.
    + intros Hdc. rewrite int_value_of, value_of_take_digits, length_take_digits.
      split; [|lia]. rewrite Z2Nat.id by lia. unfold ret. do 2 f_equal.
      destruct (Z.le_gt_cases dc (int_log10 v + 1)) as [Hle|Hgt].
      * by rewrite Z.min_r.
      * rewrite Z.min_l by lia.
        assert (10 ^ (int_log10 v + 1) <= 10 ^ dc) by (apply Z.pow_le_mono_r; lia).
        rewrite !Z.mod_small; lia.
    + intros Hdc. by replace (Z.to_nat (Z.min (int_log10 v + 1) dc)) with 0%nat by lia.
Qed.

Lemma truncated_construction_witness :
  0 <= 12345 /\ (0 < 12345 -> 12345 < 10 ^ (floor_log10 12345 + 1)) /\
  exists x, __init__ floor_log10 (fun _ _ _ => 1) (Some 12345) (Some 3) = ret x /\
            digit_cells x /\
            (0 <= 3 -> __int__ x = ret (12345 mod 10 ^ 3) /\ Z.of_nat (length x) <= 3) /\
            (3 <= 0 -> x = []).
Proof.
  split; [lia|]. split; [intros _; vm_compute; reflexivity|].
  apply (truncated_construction floor_log10 (fun _ _ _ => 1) 12345 3);
    [lia|intros _; vm_compute; reflexivity].
Defined.

(** X8. [clone] copies every cell in order: the copy equals the original
    under [==], converts to the same integer and prints the same. *)
Theorem clone_is_equal (x : BigInt) :
  clone x = x /\ __eq__ (clone x) x = ret true /\
  __int__ (clone x) = __int__ x /\ __str__ (clone x) = __str__ x.
Proof. rewrite clone_copy. split; [done|]. split; [apply eq_refl_true|done]. Qed.

(** X9. The length of a canonical store of decimal digits is the number of
    decimal digits of its integer: [10^(len-1) <= int(x) < 10^len] for a
    non-empty store, and the integer is 0 exactly for the empty store. *)
Theorem length_counts_digits (x : BigInt) (v : Z) :
  digit_cells x -> canonical x -> __int__ x = ret v ->
  (x <> [] -> 10 ^ (__len__ x - 1) <= v < 10 ^ __len__ x) /\
  (v = 0 <-> x = []).
Proof.
  intros Hd Hc Hv. rewrite int_value_of in Hv. injection Hv as <-.
  pose proof (value_of_bound x Hd) as Hb.
  assert (Hlow : x <> [] -> 10 ^ (__len__ x - 1) <= value_of x)
    by (by apply canonical_lower_bound).
  split; [unfold __len__ in *; intros Hne; specialize (Hlow Hne); lia|].
  split.
  - intros Hz. destruct x as [|d x]; [done|]. specialize (Hlow ltac:(done)).
    assert (0 < 10 ^ (__len__ (d :: x) - 1))
      by (apply Z.pow_pos_nonneg; unfold __len__; simpl; lia).
    lia.
  - by intros ->.
Qed.

Lemma length_counts_digits_witness :
  digit_cells [4; 3; 2; 1] /\ canonical [4; 3; 2; 1] /\
  __int__ [4; 3; 2; 1] = ret 1234 /\
  ([4; 3; 2; 1] <> [] -> 10 ^ (__len__ [4; 3; 2; 1] - 1) <= 1234 < 10 ^ __len__ [4; 3; 2; 1]).
Proof.
  assert (Hx : digit_cells [4; 3; 2; 1]) by (repeat constructor; lia).
  assert (Hc : canonical [4; 3; 2; 1]) by (intros d [= <-]; lia).
  split; [done|]. split; [done|]. split; [reflexivity|].
  by apply (length_counts_digits [4; 3; 2; 1] 1234).
Defined.

(** ** What [add_at] does to a value *)

Lemma add_at_run_below (self : BigInt) (idx value : Z) (self' : BigInt) (n : nat) :
  add_at_run self idx value (Ok self') n -> 0 <= idx ->
  forall k d, (k < Z.to_nat idx)%nat -> self !! k = Some d -> self' !! k = Some d.
Proof.
  remember (Ok self') as r eqn:Hr.
  induction 1 as [self idx value Hv|self idx|self idx value l1 cell l2 r n Hv Hg Hl1 _ IH];
    intros Hidx k d Hk Hd.
  - done.
  - by injection Hr as <-.
  - apply IH; [done|lia|lia|].
    assert (Hgd : grow self idx !! k = Some d) by (by apply lookup_app_l_Some).
    rewrite Hg in Hgd. apply lookup_app_l_Some.
    rewrite <- Hgd. symmetry. apply lookup_app_l. lia.
Qed.

(** X10. On a store of non-negative cells, [add_at(idx, amount)] with
    non-negative arguments returns, adds [amount * 10^idx] to the integer
    the store converts to, never shortens the store, leaves every cell below
    [idx] as it was and keeps decimal digits decimal digits.  An amount of 0
    changes nothing. *)
Theorem add_at_adds (self : BigInt) (idx amount v : Z) :
  nonneg_cells self -> 0 <= idx -> 0 <= amount -> __int__ self = ret v ->
  exists self',
    add_at self idx amount = ret self' /\
    __int__ self' = ret (v + amount * 10 ^ idx) /\
    (length self <= length self')%nat /\
    (forall k d, (k < Z.to_nat idx)%nat -> self !! k = Some d -> self' !! k = Some d) /\
    (digit_cells self -> digit_cells self') /\
    (amount = 0 -> self' = self).
Proof.
  intros Hc Hidx Ha Hv. rewrite int_value_of in Hv. injection Hv as <-.
  destruct (add_at_total self idx amount Hidx) as (r & n & Hadd & Hrun).
  destruct (add_at_run_nonneg _ _ _ _ _ Hrun Hidx Ha Hc) as (self' & -> & Hc').
  exists self'. split; [done|].
  split; [by rewrite int_value_of, (add_at_run_value _ _ _ _ _ Hrun Hidx)|].
  split; [by eapply add_at_run_length|].
  split; [by eapply add_at_run_below|].
  split; [by eapply add_at_run_digit_cells|].
  intros ->. inversion Hrun; subst; [done|lia].
Qed.

Lemma add_at_adds_witness :
  nonneg_cells [9; 9; 1] /\ 0 <= 1 /\ 0 <= 25 /\ __int__ [9; 9; 1] = ret 199 /\
  exists self',
    add_at [9; 9; 1] 1 25 = ret self' /\
    __int__ self' = ret (199 + 25 * 10 ^ 1) /\
    (length [9; 9; 1] <= length self')%nat /\
    (forall k d, (k < Z.to_nat 1)%nat -> [9; 9; 1] !! k = Some d -> self' !! k = Some d) /\
    (digit_cells [9; 9; 1] -> digit_cells self') /\
    (25 = 0 -> self' = [9; 9; 1]).
Proof.
  assert (Hx : nonneg_cells [9; 9; 1]) by (repeat constructor; lia).
  split; [done|]. split; [lia|]. split; [lia|]. split; [reflexivity|].
  apply (add_at_adds [9; 9; 1] 1 25 199); (done || lia).
Defined.




(** ** Algebra of addition and multiplication *)

(** X12. Addition and multiplication work on any two stores of non-negative
    cells, canonical or not and whatever the size of the cells: they return
    a canonical store of decimal digits that converts to the sum,
    respectively the product, of the integers of the operands. *)
Theorem arithmetic_on_stores (x y : BigInt) (vx vy : Z) :
  nonneg_cells x -> nonneg_cells y -> __int__ x = ret vx -> __int__ y = ret vy ->
  exists s p,
    __add__ x y = ret s /\ __int__ s = ret (vx + vy) /\
    digit_cells s /\ canonical s /\
    __mul__ x y = ret p /\ __int__ p = ret (vx * vy) /\
    digit_cells p /\ canonical p.
Proof.
  intros Hx Hy Hvx Hvy. rewrite int_value_of in Hvx, Hvy.
  injection Hvx as <-. injection Hvy as <-.
  destruct (add_spec x y Hx Hy) as (s & Hs & Vs & Ds & Cs).
  destruct (mul_spec x y Hx Hy) as (p & Hp & Vp & Dp & Cp).
  exists s, p. rewrite !int_value_of, Vs, Vp. done.
Qed.

Lemma arithmetic_on_stores_witness :
  nonneg_cells [15; 0] /\ nonneg_cells [7; 0; 0] /\
  __int__ [15; 0] = ret 15 /\ __int__ [7; 0; 0] = ret 7 /\
  exists s p,
    __add__ [15; 0] [7; 0; 0] = ret s /\ __int__ s = ret (15 + 7) /\
    digit_cells s /\ canonical s /\
    __mul__ [15; 0] [7; 0; 0] = ret p /\ __int__ p = ret (15 * 7) /\
    digit_cells p /\ canonical p.
Proof.
  assert (Hx : nonneg_cells [15; 0]) by (repeat constructor; lia).
  assert (Hy : nonneg_cells [7; 0; 0]) by (repeat constructor; lia).
  split; [done|]. split; [done|]. split; [reflexivity|]. split; [reflexivity|].
  by apply (arithmetic_on_stores [15; 0] [7; 0; 0] 15 7).
Defined.

(** X13. Addition and multiplication are commutative: on stores of
    non-negative cells [x + y] and [y + x] are the same store, and so are
    [x * y] and [y * x]. *)
Theorem arithmetic_commutes (x y : BigInt) :
  nonneg_cells x -> nonneg_cells y ->
  __add__ x y = __add__ y x /\ __mul__ x y = __mul__ y x.
Proof.
  intros Hx Hy.
  destruct (add_spec x y Hx Hy) as (s & -> & Vs & Ds & Cs).
  destruct (add_spec y x Hy Hx) as (s' & -> & Vs' & Ds' & Cs').
  destruct (mul_spec x y Hx Hy) as (p & -> & Vp & Dp & Cp).
  destruct (mul_spec y x Hy Hx) as (p' & -> & Vp' & Dp' & Cp').
  split; do 2 f_equal; apply canonical_unique; try done; lia.
Qed.

Lemma arithmetic_commutes_witness :
  nonneg_cells [9; 9; 9] /\ nonneg_cells [5; 2] /\
  __add__ [9; 9; 9] [5; 2] = __add__ [5; 2] [9; 9; 9] /\
  __mul__ [9; 9; 9] [5; 2] = __mul__ [5; 2] [9; 9; 9].
Proof.
  assert (Hx : nonneg_cells [9; 9; 9]) by (repeat constructor; lia).
  assert (Hy : nonneg_cells [5; 2]) by (repeat constructor; lia).
  split; [done|]. split; [done|]. by apply (arithmetic_commutes [9; 9; 9] [5; 2]).
Defined.

(** X14. Addition and multiplication are associative and multiplication
    distributes over addition, as equalities of the stores returned. *)
Theorem arithmetic_associates (x y z : BigInt) :
  nonneg_cells x -> nonneg_cells y -> nonneg_cells z ->
  (s <- __add__ x y;; __add__ s z) = (t <- __add__ y z;; __add__ x t) /\
  (p <- __mul__ x y;; __mul__ p z) = (q <- __mul__ y z;; __mul__ x q) /\
  (s <- __add__ y z;; __mul__ x s)
  = (p <- __mul__ x y;; q <- __mul__ x z;; __add__ p q).
Proof.
  intros Hx Hy Hz.
  destruct (add_spec x y Hx Hy) as (xy & -> & Vxy & Dxy & _).
  destruct (add_spec y z Hy Hz) as (yz & -> & Vyz & Dyz & _).
  destruct (mul_spec x y Hx Hy) as (pxy & -> & Wxy & Exy & _).
  destruct (mul_spec y z Hy Hz) as (pyz & -> & Wyz & Eyz & _).
  destruct (mul_spec x z Hx Hz) as (pxz & -> & Wxz & Exz & _).
  rewrite !bind_ret.
  apply digit_cells_nonneg in Dxy, Dyz, Exy, Eyz, Exz.
  destruct (add_spec xy z Dxy Hz) as (a1 & -> & Va1 & Da1 & Ca1).
  destruct (add_spec x yz Hx Dyz) as (a2 & -> & Va2 & Da2 & Ca2).
  destruct (mul_spec pxy z Exy Hz) as (m1 & -> & Vm1 & Dm1 & Cm1).
  destruct (mul_spec x pyz Hx Eyz) as (m2 & -> & Vm2 & Dm2 & Cm2).
  destruct (mul_spec x yz Hx Dyz) as (d1 & -> & Vd1 & Dd1 & Cd1).
  destruct (add_spec pxy pxz Exy Exz) as (d2 & -> & Vd2 & Dd2 & Cd2).
  repeat split; do 2 f_equal; apply canonical_unique; try done; nia.
Qed.

Lemma arithmetic_associates_witness :
  nonneg_cells [9; 9] /\ nonneg_cells [5; 2] /\ nonneg_cells [7] /\
  (s <- __add__ [5; 2] [7];; __mul__ [9; 9] s)
  = (p <- __mul__ [9; 9] [5; 2];; q <- __mul__ [9; 9] [7];; __add__ p q).
Proof.
  assert (Hx : nonneg_cells [9; 9]) by (repeat constructor; lia).
  assert (Hy : nonneg_cells [5; 2]) by (repeat constructor; lia).
  assert (Hz : nonneg_cells [7]) by (repeat constructor; lia).
  split; [done|]. split; [done|]. split; [done|].
  by apply (arithmetic_associates [9; 9] [5; 2] [7]).
Defined.

(** X15. Multiplying by the empty store (zero) gives the empty store, on
    either side and for any cells whatever. *)
Theorem mul_zero (x : BigInt) : __mul__ x [] = ret [] /\ __mul__ [] x = ret [].
Proof.
  split; [reflexivity|]. unfold __mul__. unfold __len__ at 1.
  destruct (for_in_range_inv (length x)
    (fun j result =>
       row <-
         for_in (range (__len__ []))
           (fun i '(result, carry) =>
              a <- getitem [] i;;
              b <- getitem x j;;
              let product := a * b + carry in
              let carry := product / 10 in
              let product := product mod 10 in
              result <- add_at result (j + i) product;;
              ret (result, carry))
           (result, 0);;
       let '(result, carry) := row in
       if negb (carry =? 0) then add_at result (j + __len__ []) carry
       else ret result)
    empty (fun _ r => r = [])) as (r & Hr & ->); [done| |done].
  intros k r _ ->. by exists [].
Qed.

(** X16. On canonical stores of decimal digits the empty store is the
    identity of addition and the store [[1]] the identity of
    multiplication. *)
Theorem arithmetic_identities (x : BigInt) :
  digit_cells x -> canonical x ->
  __add__ x [] = ret x /\ __add__ [] x = ret x /\
  __mul__ x [1] = ret x /\ __mul__ [1] x = ret x.
Proof.
  intros Hd Hc. pose proof (digit_cells_nonneg x Hd) as Hx.
  assert (H0 : nonneg_cells []) by constructor.
  assert (H1 : nonneg_cells [1]) by (repeat constructor; lia).
  destruct (add_spec x [] Hx H0) as (a1 & -> & Va1 & Da1 & Ca1).
  destruct (add_spec [] x H0 Hx) as (a2 & -> & Va2 & Da2 & Ca2).
  destruct (mul_spec x [1] Hx H1) as (m1 & -> & Vm1 & Dm1 & Cm1).
  destruct (mul_spec [1] x H1 Hx) as (m2 & -> & Vm2 & Dm2 & Cm2).
  rewrite ?value_of_cons, ?value_of_nil in *.
  repeat split; do 2 f_equal; apply canonical_unique; try done; lia.
Qed.

Lemma arithmetic_identities_witness :
  digit_cells [4; 3; 2; 1] /\ canonical [4; 3; 2; 1] /\
  __add__ [4; 3; 2; 1] [] = ret [4; 3; 2; 1] /\
  __mul__ [4; 3; 2; 1] [1] = ret [4; 3; 2; 1].
Proof.
  assert (Hx : digit_cells [4; 3; 2; 1]) by (repeat constructor; lia).
  assert (Hc : canonical [4; 3; 2; 1]) by (intros d [= <-]; lia).
  split; [done|]. split; [done|].
  destruct (arithmetic_identities [4; 3; 2; 1] Hx Hc) as (H1 & _ & H2 & _).
  by split.
Defined.

(** ** The solver: results, errors and the demo script *)

Lemma min_loop_pointwise (a : list Z) :
  forall (b sc sd : list Z),
  length a = length b -> length sc = length sd ->
  for_in (range_down (- Z.of_nat (length sc) - 1)
                     (- Z.of_nat (length sc) - 1 - Z.of_nat (length a)))
    min_step (a ++ sc, b ++ sd)
  = ret (zip_with Z.max a b ++ sc, zip_with Z.min a b ++ sd).
Proof.
  induction a as [|x a IH] using rev_ind; intros b sc sd Hlen Hs.
  - destruct b; [|done]. simpl length. by rewrite Z.sub_0_r, range_down_nil.
  - destruct b as [|y b _] using rev_ind.
    { rewrite length_app in Hlen. simpl in Hlen. lia. }
    assert (Hl : length a = length b).
    { rewrite !length_app in Hlen. simpl in Hlen. lia. }
    rewrite range_down_cons by (rewrite length_app; simpl; lia).
    rewrite for_in_cons, <- !app_assoc. simpl app.
    rewrite min_step_from_end by done.
    rewrite !zip_with_app by done. simpl zip_with.
    rewrite <- !app_assoc. simpl app.
    assert (Hrest : for_in (range_down (- Z.of_nat (length sc) - 1 - 1)
                       (- Z.of_nat (length sc) - 1 - Z.of_nat (length (a ++ [x]))))
                      min_step (a ++ Z.max x y :: sc, b ++ Z.min x y :: sd)
                    = ret (zip_with Z.max a b ++ Z.max x y :: sc,
                           zip_with Z.min a b ++ Z.min x y :: sd)).
    { pose proof (IH b (Z.max x y :: sc) (Z.min x y :: sd) Hl ltac:(simpl; lia)) as H.
      simpl length in H. rewrite length_app. simpl length. rewrite <- H.
      do 2 f_equal; lia. }
    destruct (Z.ltb_spec x y); rewrite bind_ret.
    + assert (Z.max x y = y) as Em by lia. assert (Z.min x y = x) as En by lia.
      by rewrite Em, En in *.
    + assert (Z.max x y = x) as Em by lia. assert (Z.min x y = y) as En by lia.
      by rewrite Em, En in *.
Qed.

(** X17. [calc_min_product] gives [c] the larger and [d] the smaller digit
    of every position, whatever the cells hold, and returns the product of
    the two. *)
Theorem min_product_pointwise (a b : BigInt) :
  length a = length b ->
  calc_min_product a b
  = (p <- __mul__ (zip_with Z.max a b) (zip_with Z.min a b);;
     ret (zip_with Z.max a b, zip_with Z.min a b, p)).
Proof.
  intros Hlen. unfold calc_min_product, __len__.
  destruct (Z.eqb_spec (Z.of_nat (length a)) (Z.of_nat (length b))); [|lia].
  simpl negb. cbv iota zeta. rewrite !clone_copy.
  pose proof (min_loop_pointwise a b [] [] Hlen eq_refl) as H.
  rewrite !app_nil_r in H. simpl length in H.
  change (- Z.of_nat 0 - 1) with (-1) in H.
  replace (- Z.of_nat (length a) - 1) with (-1 - Z.of_nat (length a)) by lia.
  unfold BigInt in *. by rewrite H, bind_ret.
Qed.

Lemma min_product_pointwise_witness :
  length [4; 3; 2; 1] = length [8; 1; 6; 5] /\
  calc_min_product [4; 3; 2; 1] [8; 1; 6; 5]
  = (p <- __mul__ (zip_with Z.max [4; 3; 2; 1] [8; 1; 6; 5])
                  (zip_with Z.min [4; 3; 2; 1] [8; 1; 6; 5]);;
     ret (zip_with Z.max [4; 3; 2; 1] [8; 1; 6; 5],
          zip_with Z.min [4; 3; 2; 1] [8; 1; 6; 5], p)).
Proof.
  split; [reflexivity|].
  apply (min_product_pointwise [4; 3; 2; 1] [8; 1; 6; 5]). reflexivity.
Defined.

Lemma calc_max_product_spec (a b : BigInt) :
  length a = length b -> digit_cells a -> digit_cells b ->
  exists c d p,
    calc_max_product a b = ret (c, d, p) /\ swaps a b c d /\
    digit_cells p /\ canonical p /\ value_of p = value_of c * value_of d /\
    value_of d <= value_of c /\
    forall c' d', swaps a b c' d' -> value_of c' * value_of d' <= value_of p.
Proof.
  intros Hlen Ha Hb.
  destruct (max_loop_spec a b [] [] false Hlen eq_refl Ha Hb)
    as (c & d & f & Hmax & Hs & Hpos & Hopt).
  rewrite !app_nil_r in Hmax. simpl length in Hmax.
  change (- Z.of_nat 0 - 1) with (-1) in Hmax.
  destruct (swaps_digit_cells _ _ _ _ Hs Ha Hb) as [Hc Hd].
  destruct (mul_spec c d) as (p & Hp & Hv & Hdp & Hcp);
    [by apply digit_cells_nonneg..|].
  exists c, d, p. split.
  { unfold calc_max_product, __len__.
    destruct (Z.eqb_spec (Z.of_nat (length a)) (Z.of_nat (length b))); [|lia].
    simpl negb. cbv iota zeta. rewrite !clone_copy.
    replace (- Z.of_nat (length a) - 1) with (-1 - Z.of_nat (length a)) by lia.
    unfold BigInt in *. rewrite Hmax, bind_ret. cbv beta iota.
    by rewrite Hp, bind_ret. }
  repeat (split; [done || lia|]).
  intros c' d' Hs'. rewrite Hv. apply product_by_difference.
  - by rewrite (swaps_sum _ _ _ _ Hs), (swaps_sum _ _ _ _ Hs').
  - specialize (Hopt c' d' Hs'). lia.
Qed.

Lemma calc_min_product_spec (a b : BigInt) :
  length a = length b -> digit_cells a -> digit_cells b ->
  exists c d p,
    calc_min_product a b = ret (c, d, p) /\ swaps a b c d /\
    digit_cells p /\ canonical p /\ value_of p = value_of c * value_of d /\
    value_of d <= value_of c /\
    forall c' d', swaps a b c' d' -> value_of p <= value_of c' * value_of d'.
Proof.
  intros Hlen Ha Hb.
  destruct (min_loop_spec a b [] [] Hlen eq_refl) as (c & d & Hmin & Hs & Hopt).
  rewrite !app_nil_r in Hmin. simpl length in Hmin.
  change (- Z.of_nat 0 - 1) with (-1) in Hmin.
  destruct (swaps_digit_cells _ _ _ _ Hs Ha Hb) as [Hc Hd].
  destruct (mul_spec c d) as (p & Hp & Hv & Hdp & Hcp);
    [by apply digit_cells_nonneg..|].
  pose proof (spread_bound a b Hlen Ha Hb) as Hsp.
  exists c, d, p. split.
  { unfold calc_min_product, __len__.
    destruct (Z.eqb_spec (Z.of_nat (length a)) (Z.of_nat (length b))); [|lia].
    simpl negb. cbv iota zeta. rewrite !clone_copy.
    replace (- Z.of_nat (length a) - 1) with (-1 - Z.of_nat (length a)) by lia.
    unfold BigInt in *. rewrite Hmin, bind_ret. cbv beta iota.
    by rewrite Hp, bind_ret. }
  repeat (split; [done || lia|]).
  intros c' d' Hs'. rewrite Hv. apply product_by_difference.
  - by rewrite (swaps_sum _ _ _ _ Hs), (swaps_sum _ _ _ _ Hs').
  - pose proof (swaps_diff _ _ _ _ Hs'). lia.
Qed.

(** X18. For stores of decimal digits of equal length both greedy solvers
    return an exchange [(c, d)] of the digits of [(a, b)] with [c] at least
    [d], together with the product of the two; no exchange has a larger
    product than the one [calc_max_product] returns or a smaller product
    than the one [calc_min_product] returns. *)
Theorem greedy_products_extremal (a b : BigInt) :
  length a = length b -> digit_cells a -> digit_cells b ->
  exists c1 d1 p1 c2 d2 p2,
    calc_max_product a b = ret (c1, d1, p1) /\
    calc_min_product a b = ret (c2, d2, p2) /\
    swaps a b c1 d1 /\ swaps a b c2 d2 /\
    value_of d1 <= value_of c1 /\ value_of d2 <= value_of c2 /\
    __int__ p1 = ret (value_of c1 * value_of d1) /\
    __int__ p2 = ret (value_of c2 * value_of d2) /\
    forall c d, swaps a b c d ->
      value_of p2 <= value_of c * value_of d <= value_of p1.
Proof.
  intros Hlen Ha Hb.
  destruct (calc_max_product_spec a b Hlen Ha Hb)
    as (c1 & d1 & p1 & H1 & S1 & _ & _ & V1 & O1 & M1).
  destruct (calc_min_product_spec a b Hlen Ha Hb)
    as (c2 & d2 & p2 & H2 & S2 & _ & _ & V2 & O2 & M2).
  exists c1, d1, p1, c2, d2, p2. rewrite !int_value_of, V1, V2.
  repeat (split; [done|]). intros c d Hs.
  specialize (M1 c d Hs). specialize (M2 c d Hs). lia.
Qed.

Lemma greedy_products_extremal_witness :
  length [4; 3; 2; 1] = length [8; 7; 6; 5] /\
  digit_cells [4; 3; 2; 1] /\ digit_cells [8; 7; 6; 5] /\
  exists c1 d1 p1 c2 d2 p2,
    calc_max_product [4; 3; 2; 1] [8; 7; 6; 5] = ret (c1, d1, p1) /\
    calc_min_product [4; 3; 2; 1] [8; 7; 6; 5] = ret (c2, d2, p2) /\
    swaps [4; 3; 2; 1] [8; 7; 6; 5] c1 d1 /\ swaps [4; 3; 2; 1] [8; 7; 6; 5] c2 d2 /\
    value_of d1 <= value_of c1 /\ value_of d2 <= value_of c2 /\
    __int__ p1 = ret (value_of c1 * value_of d1) /\
    __int__ p2 = ret (value_of c2 * value_of d2) /\
    forall c d, swaps [4; 3; 2; 1] [8; 7; 6; 5] c d ->
      value_of p2 <= value_of c * value_of d <= value_of p1.
Proof.
  assert (Ha : digit_cells [4; 3; 2; 1]) by (repeat constructor; lia).
  assert (Hb : digit_cells [8; 7; 6; 5]) by (repeat constructor; lia).
  split; [reflexivity|]. split; [done|]. split; [done|].
  by apply (greedy_products_extremal [4; 3; 2; 1] [8; 7; 6; 5]).
Defined.

Lemma brute_rec_pairs (a2 : list Z) :
  forall (b2 a1 b1 : list Z) (st : BigInt * BigInt) (e : extremes),
  length a1 = length b1 -> length a2 = length b2 ->
  digit_cells (a1 ++ a2) -> digit_cells (b1 ++ b2) ->
  brute_rec (S (length a2)) (a1 ++ a2) (b1 ++ b2) (Z.of_nat (length a1))
  = ret (st, e) ->
  (exists c d, swaps a2 b2 c d /\ c_max e = a1 ++ c /\ d_max e = b1 ++ d /\
               value_of (p_max e) = value_of (c_max e) * value_of (d_max e)) /\
  (exists c d, swaps a2 b2 c d /\ c_min e = a1 ++ c /\ d_min e = b1 ++ d /\
               value_of (p_min e) = value_of (c_min e) * value_of (d_min e)).
Proof.
  induction a2 as [|x a2 IH]; intros [|y b2] a1 b1 st e Hl1 Hl2 Ha Hb H; try done.
  - rewrite !app_nil_r in *.
    rewrite brute_rec_leaf in H by (done || unfold __len__; lia).
    destruct (mul_spec a1 b1) as (p & Hp & Hv & _);
      [by apply digit_cells_nonneg..|].
    rewrite Hp, bind_ret, !clone_copy in H. injection H as _ <-. simpl.
    split; exists [], []; rewrite !app_nil_r; (split; [constructor|done]).
  - injection Hl2 as Hl2.
    assert (Hlen : length (a1 ++ x :: a2) = length (b1 ++ y :: b2))
      by (rewrite !length_app; simpl; lia).
    cbn [length] in H. rewrite brute_rec_node in H
      by (done || unfold __len__; rewrite length_app; simpl; lia).
    assert (Hidx : Z.of_nat (length a1) + 1 = Z.of_nat (length (a1 ++ [x])))
      by (rewrite length_app; simpl; lia).
    assert (Hidy : Z.of_nat (length a1) + 1 = Z.of_nat (length (a1 ++ [y])))
      by (rewrite length_app; simpl; lia).
    assert (Hax : forall z l, a1 ++ z :: l = (a1 ++ [z]) ++ l)
      by (intros; by rewrite <- app_assoc).
    assert (Hbx : forall z l, b1 ++ z :: l = (b1 ++ [z]) ++ l)
      by (intros; by rewrite <- app_assoc).
    assert (Hl1' : forall z w, length (a1 ++ [z]) = length (b1 ++ [w]))
      by (intros; rewrite !length_app; simpl; lia).
    assert (Ha' : digit_cells (a1 ++ y :: a2) /\ digit_cells (b1 ++ x :: b2)).
    { apply Forall_app in Ha as [Ha1 Ha2]. apply Forall_cons in Ha2 as [Hx Ha2].
      apply Forall_app in Hb as [Hb1 Hb2]. apply Forall_cons in Hb2 as [Hy Hb2].
      split; apply Forall_app; (split; [done|]); by constructor. }
    destruct Ha' as [Ha' Hb'].
    assert (Ha1 : digit_cells ((a1 ++ [x]) ++ a2)) by (by rewrite <- Hax).
    assert (Hb1 : digit_cells ((b1 ++ [y]) ++ b2)) by (by rewrite <- Hbx).
    assert (Ha2 : digit_cells ((a1 ++ [y]) ++ a2)) by (by rewrite <- Hax).
    assert (Hb2 : digit_cells ((b1 ++ [x]) ++ b2)) by (by rewrite <- Hbx).
    destruct (brute_rec_spec a2 b2 (a1 ++ [x]) (b1 ++ [y]) (Hl1' x y) Hl2 Ha1 Hb1)
      as (e1 & He1 & [Hd1 Hc1] & [Hd1' Hc1'] & _).
    destruct (brute_rec_spec a2 b2 (a1 ++ [y]) (b1 ++ [x]) (Hl1' y x) Hl2 Ha2 Hb2)
      as (e2 & He2 & [Hd2 Hc2] & [Hd2' Hc2'] & _).
    destruct (IH b2 (a1 ++ [x]) (b1 ++ [y]) _ e1 (Hl1' x y) Hl2 Ha1 Hb1 He1)
      as [(cM1 & dM1 & SM1 & EM1 & FM1 & VM1) (cm1 & dm1 & Sm1 & Em1 & Fm1 & Vm1)].
    destruct (IH b2 (a1 ++ [y]) (b1 ++ [x]) _ e2 (Hl1' y x) Hl2 Ha2 Hb2 He2)
      as [(cM2 & dM2 & SM2 & EM2 & FM2 & VM2) (cm2 & dm2 & Sm2 & Em2 & Fm2 & Vm2)].
    rewrite <- Hidx, <- !Hax, <- !Hbx in He1.
    rewrite <- Hidy, <- !Hax, <- !Hbx in He2.
    rewrite He1, bind_ret in H. cbv beta iota zeta in H.
    rewrite swap_digits_mid, bind_ret in H by done. cbv beta iota zeta in H.
    rewrite He2, bind_ret in H. cbv beta iota zeta in H.
    rewrite swap_digits_mid, bind_ret in H by done. cbv beta iota zeta in H.
    rewrite ge_value, le_value in H by done.
    rewrite <- !app_assoc in EM1, FM1, EM2, FM2, Em1, Fm1, Em2, Fm2.
    simpl app in EM1, FM1, EM2, FM2, Em1, Fm1, Em2, Fm2.
    destruct (value_of (p_max e2) <=? value_of (p_max e1));
      destruct (value_of (p_min e1) <=? value_of (p_min e2));
      rewrite !bind_ret in H; cbv beta iota zeta in H;
      injection H as _ <-; simpl; split.
    all: first
      [ by (exists (x :: cM1), (y :: dM1); split; [by constructor|])
      | by (exists (y :: cM2), (x :: dM2); split; [by constructor|])
      | by (exists (x :: cm1), (y :: dm1); split; [by constructor|])
      | by (exists (y :: cm2), (x :: dm2); split; [by constructor|]) ].
Qed.

(** X19. Started at position [k], the brute-force search exchanges only
    positions [k] and above: it returns, for the maximum and for the
    minimum, a pair that keeps the first [k] cells of [a] and [b] and is an
    exchange of the remaining ones, together with the product of that pair;
    no such exchange has a larger, respectively smaller, product; and [a]
    and [b] are left as they were. *)
Theorem brute_from_index (a b : BigInt) (k : nat) :
  length a = length b -> (k <= length a)%nat -> digit_cells a -> digit_cells b ->
  exists e,
    calc_extreme_products_brute a b (Z.of_nat k) = ret (a, b, e) /\
    (exists c d, swaps (drop k a) (drop k b) c d /\
                 c_max e = take k a ++ c /\ d_max e = take k b ++ d /\
                 __int__ (p_max e) = ret (value_of (c_max e) * value_of (d_max e))) /\
    (exists c d, swaps (drop k a) (drop k b) c d /\
                 c_min e = take k a ++ c /\ d_min e = take k b ++ d /\
                 __int__ (p_min e) = ret (value_of (c_min e) * value_of (d_min e))) /\
    (forall c d, swaps (drop k a) (drop k b) c d ->
       value_of (p_min e) <= value_of (take k a ++ c) * value_of (take k b ++ d)
       <= value_of (p_max e)).
Proof.
  intros Hlen Hk Ha Hb.
  assert (Hl1 : length (take k a) = length (take k b))
    by (rewrite !length_take; lia).
  assert (Hl2 : length (drop k a) = length (drop k b))
    by (rewrite !length_drop; lia).
  assert (Ha' : digit_cells (take k a ++ drop k a)) by (by rewrite take_drop).
  assert (Hb' : digit_cells (take k b ++ drop k b)) by (by rewrite take_drop).
  destruct (brute_rec_spec _ _ _ _ Hl1 Hl2 Ha' Hb')
    as (e & He & _ & _ & _ & Hmax & _ & Hmin).
  destruct (brute_rec_pairs _ _ _ _ _ _ Hl1 Hl2 Ha' Hb' He) as [HM Hm].
  rewrite !take_drop in He.
  replace (Z.of_nat (length (take k a))) with (Z.of_nat k) in He
    by (rewrite length_take; lia).
  exists e. split.
  { unfold calc_extreme_products_brute, __len__.
    replace (Z.to_nat (Z.of_nat (length a) - Z.of_nat k)) with (length (drop k a))
      by (rewrite length_drop; lia).
    exact He. }
  rewrite !int_value_of.
  split; [destruct HM as (c & d & ? & ? & ? & ->); eauto 10|].
  split; [destruct Hm as (c & d & ? & ? & ? & ->); eauto 10|].
  intros c d Hs. specialize (Hmax c d Hs). specialize (Hmin c d Hs). lia.
Qed.

Lemma brute_from_index_witness :
  length [4; 3; 2; 1] = length [8; 7; 6; 5] /\ (2 <= length [4; 3; 2; 1])%nat /\
  digit_cells [4; 3; 2; 1] /\ digit_cells [8; 7; 6; 5] /\
  exists e,
    calc_extreme_products_brute [4; 3; 2; 1] [8; 7; 6; 5] (Z.of_nat 2)
    = ret ([4; 3; 2; 1], [8; 7; 6; 5], e) /\
    (exists c d, swaps (drop 2 [4; 3; 2; 1]) (drop 2 [8; 7; 6; 5]) c d /\
                 c_max e = take 2 [4; 3; 2; 1] ++ c /\
                 d_max e = take 2 [8; 7; 6; 5] ++ d /\
                 __int__ (p_max e) = ret (value_of (c_max e) * value_of (d_max e))).
Proof.
  assert (Ha : digit_cells [4; 3; 2; 1]) by (repeat constructor; lia).
  assert (Hb : digit_cells [8; 7; 6; 5]) by (repeat constructor; lia).
  split; [reflexivity|]. split; [simpl; lia|]. split; [done|]. split; [done|].
  destruct (brute_from_index [4; 3; 2; 1] [8; 7; 6; 5] 2 eq_refl
              ltac:(simpl; lia) Ha Hb) as (e & He & HM & _).
  exists e. by split.
Defined.

(** X20. Operands of different lengths make all three solver functions
    raise ValueError, whatever the start index of the search; and a search
    started at or beyond the length exchanges nothing and returns [a], [b]
    and their product for both extremes. *)
Theorem solver_edge_cases (a b : BigInt) (idx : Z) :
  (length a <> length b ->
   calc_max_product a b = raise ValueError /\
   calc_min_product a b = raise ValueError /\
   calc_extreme_products_brute a b idx = raise ValueError) /\
  (length a = length b -> __len__ a <= idx ->
   calc_extreme_products_brute a b idx
   = (prod <- __mul__ a b;; ret (a, b, Extremes a b prod a b prod))).
Proof.
  split.
  - intros Hne. unfold calc_max_product, calc_min_product,
      calc_extreme_products_brute. simpl brute_rec. unfold __len__.
    by destruct (Z.eqb_spec (Z.of_nat (length a)) (Z.of_nat (length b))); [lia|].
  - intros Hlen Hidx. unfold calc_extreme_products_brute.
    rewrite brute_rec_leaf by done.
    destruct (__mul__ a b) as [[p|err]|]; [|done|done].
    simpl. by rewrite !clone_copy.
Qed.

Lemma solver_edge_cases_witness :
  length [1; 2] <> length [3] /\
  calc_max_product [1; 2] [3] = raise ValueError /\
  calc_min_product [1; 2] [3] = raise ValueError /\
  calc_extreme_products_brute [1; 2] [3] 0 = raise ValueError.
Proof.
  split; [simpl; lia|].
  apply (solver_edge_cases [1; 2] [3] 0). simpl. lia.
Defined.

(** X21. The demo script always reports a valid result: whatever digits
    [randint] draws within its bounds for the two ten-digit numbers, the
    script returns and the text it writes ends with the line
    "Result is valid". *)
Theorem main_reports_valid (int_log10 : Z -> Z)
    (randint_a randint_b : Z -> Z -> Z -> Z) :
  (forall i lo hi, lo <= hi -> lo <= randint_a i lo hi <= hi) ->
  (forall i lo hi, lo <= hi -> lo <= randint_b i lo hi <= hi) ->
  exists out,
    main int_log10 randint_a randint_b = ret (out ++ "Result is valid" ++ nl)%string.
Proof.
  intros Hra Hrb.
  destruct (init_random int_log10 randint_a 10 Hra) as (a & Ia & Hla & Hda & _).
  destruct (init_random int_log10 randint_b 10 Hrb) as (b & Ib & Hlb & Hdb & _).
  assert (Hlen : length a = length b) by lia.
  destruct (calc_max_product_spec a b Hlen Hda Hdb)
    as (c1 & d1 & p1 & H1 & S1 & D1 & C1 & V1 & _ & M1).
  destruct (calc_min_product_spec a b Hlen Hda Hdb)
    as (c2 & d2 & p2 & H2 & S2 & D2 & C2 & V2 & _ & M2).
  destruct (brute_rec_spec a b [] [] eq_refl Hlen Hda Hdb)
    as (e & He & [Dmax Cmax] & [Dmin Cmin] & Exmax & Allmax & Exmin & Allmin).
  simpl app in *. simpl length in He.
  assert (H3 : calc_extreme_products_brute a b 0 = ret (a, b, e)).
  { unfold calc_extreme_products_brute, __len__.
    replace (Z.to_nat (Z.of_nat (length a) - 0)) with (length a) by lia.
    exact He. }
  assert (E1 : p1 = p_max e).
  { apply canonical_unique; try done. apply Z.le_antisymm.
    - rewrite V1. by apply Allmax.
    - destruct Exmax as (c & d & Hs & ->). by apply M1. }
  assert (E2 : p2 = p_min e).
  { apply canonical_unique; try done. apply Z.le_antisymm.
    - destruct Exmin as (c & d & Hs & ->). by apply M2.
    - rewrite V2. by apply Allmin. }
  unfold main. rewrite Ia, bind_ret, Ib, bind_ret, H1, bind_ret.
  cbv beta iota zeta. rewrite H2, bind_ret. cbv beta iota zeta.
  rewrite H3, bind_ret. cbv beta iota zeta.
  rewrite E1, E2, !eq_refl_true, !bind_ret. cbv beta iota zeta.
  match goal with
  | |- exists out, ret (?o1 ++ ?o2 ++ ?o3 ++ ?o4)%string = _ =>
      exists (o1 ++ o2 ++ o3)%string;
      rewrite <- (string_app_assoc o1 (o2 ++ o3)), <- (string_app_assoc o2 o3)
  end.
  reflexivity.
Qed.

Lemma main_reports_valid_witness :
  (forall i lo hi : Z, lo <= hi -> lo <= (fun _ lo _ => lo) i lo hi <= hi) /\
  (forall i lo hi : Z, lo <= hi -> lo <= (fun _ _ hi => hi) i lo hi <= hi) /\
  exists out,
    main floor_log10 (fun _ lo _ => lo) (fun _ _ hi => hi)
    = ret (out ++ "Result is valid" ++ nl)%string.
Proof.
  split; [intros; simpl; lia|]. split; [intros; simpl; lia|].
  apply (main_reports_valid floor_log10 (fun _ lo _ => lo) (fun _ _ hi => hi));
    intros; simpl; lia.
Defined.

(** ** Cells of a constructed value, subscript bounds and printing *)

(** X22. Cell [k] of a value constructed from a positive integer [v] is the
    [k]-th decimal digit of [v], for every [k] below the digit count
    [num_dc] the constructor settles on; there are exactly [num_dc] cells
    (none when [num_dc <= 0]). *)
Theorem constructor_digits (int_log10 : Z -> Z) (randint : Z -> Z -> Z -> Z)
    (v : Z) (dc : option Z) :
  0 < v ->
  exists x, __init__ int_log10 randint (Some v) dc = ret x /\
            length x = Z.to_nat (num_dc int_log10 v dc) /\
            forall k, (k < length x)%nat ->
                      x !! k = Some ((v / 10 ^ Z.of_nat k) mod 10).
Proof.
  intros Hv. rewrite init_positive by done. fold (num_dc int_log10 v dc).
  eexists. split; [done|]. rewrite length_take_digits. split; [done|].
  intros k Hk. by apply lookup_take_digits.
Qed.

Lemma constructor_digits_witness :
  0 < 5078 /\
  exists x, __init__ floor_log10 (fun _ _ _ => 1) (Some 5078) None = ret x /\
            length x = Z.to_nat (num_dc floor_log10 5078 None) /\
            forall k, (k < length x)%nat ->
                      x !! k = Some ((5078 / 10 ^ Z.of_nat k) mod 10).
Proof.
  split; [lia|]. apply (constructor_digits floor_log10 (fun _ _ _ => 1) 5078 None). lia.
Defined.

(** X23. [add_at] looks at the index only for a positive amount: then an
    index below [-len(self)] raises IndexError (always, on the empty store,
    for a negative index); for amount 0 the store is returned unchanged and
    for a negative amount NotImplementedError is raised, whatever the
    index. *)
Theorem add_at_index_bounds (self : BigInt) (idx amount : Z) :
  (0 < amount -> idx < - __len__ self -> add_at self idx amount = raise IndexError) /\
  (amount = 0 -> add_at self idx amount = ret self) /\
  (amount < 0 -> add_at self idx amount = raise NotImplementedError).
Proof.
  split; [|split].
  - intros Ha Hidx. unfold add_at.
    destruct (add_at_gas_S self idx amount) as [n ->].
    simpl add_at_rec.
    destruct (Z.ltb_spec amount 0); [lia|]. destruct (Z.eqb_spec amount 0); [lia|].
    unfold __len__ in Hidx. unfold grow, __len__.
    replace (Z.to_nat (idx + 1 - Z.of_nat (length self))) with 0%nat by lia.
    simpl replicate. rewrite app_nil_r. unfold getitem, index.
    destruct (Z.leb_spec 0 idx); [lia|].
    by destruct (Z.leb_spec (- Z.of_nat (length self)) idx); [lia|].
  - intros ->. unfold add_at.
    by destruct (add_at_gas_S self idx 0) as [n ->].
  - apply add_at_negative.
Qed.

Lemma add_at_index_bounds_witness :
  0 < 5 /\ -3 < - __len__ [1; 2] /\ add_at [1; 2] (-3) 5 = raise IndexError.
Proof.
  split; [lia|]. split; [unfold __len__; simpl; lia|].
  apply (add_at_index_bounds [1; 2] (-3) 5); unfold __len__; simpl; lia.
Defined.

Lemma str_digits (x : BigInt) :
  digit_cells x -> __str__ x = string_of_list_ascii (digit_char <$> rev x).
Proof.
  intros Hd. unfold __str__. rewrite str_loop, string_app_nil_r.
  apply concat_digits. unfold digit_cells. by apply Forall_rev.
Qed.

Lemma digit_char_inj (d e : Z) :
  0 <= d <= 9 -> 0 <= e <= 9 -> digit_char d = digit_char e -> d = e.
Proof.
  intros Hd He H. apply (f_equal nat_of_ascii) in H. unfold digit_char in H.
  rewrite !nat_ascii_embedding in H by lia. lia.
Qed.

Lemma digit_chars_inj (l k : list Z) :
  digit_cells l -> digit_cells k -> digit_char <$> l = digit_char <$> k -> l = k.
Proof.
  intros Hl. revert k. induction Hl as [|d l Hd _ IH]; intros [|e k] Hk H; try done.
  apply Forall_cons in Hk as [He Hk]. rewrite !fmap_cons in H.
  injection H as H1 H2. f_equal; [by apply digit_char_inj|by apply IH].
Qed.

Lemma string_app_inv_head (s t u : string) : (s ++ t = s ++ u)%string -> t = u.
Proof. induction s as [|c s IH]; [done|]. simpl. intros [= H]. by apply IH. Qed.

Lemma string_app_inv_tail (t u : string) (c : ascii) :
  (t ++ String c "" = u ++ String c "")%string -> t = u.
Proof.
  revert u. induction t as [|a t IH]; intros [|b u]; simpl; try done.
  - intros [= _ H]. by destruct u.
  - intros [= _ H]. by destruct t.
  - intros [= -> H]. f_equal. by apply IH.
Qed.

(** X24. Printing loses nothing on stores of decimal digits: two such stores
    with the same [str], or the same [repr], are the same store, and [str]
    has one character per cell. *)
Theorem str_injective (x y : BigInt) :
  digit_cells x -> digit_cells y ->
  (__str__ x = __str__ y -> x = y) /\
  (__repr__ x = __repr__ y -> x = y) /\
  String.length (__str__ x) = length x.
Proof.
  intros Hx Hy.
  assert (Hstr : __str__ x = __str__ y -> x = y).
  { rewrite !str_digits by done. intros H.
    apply (f_equal list_ascii_of_string) in H.
    rewrite !list_ascii_of_string_of_list_ascii in H.
    apply digit_chars_inj in H; [|by apply Forall_rev..].
    apply (f_equal (@rev Z)) in H. by rewrite !rev_involutive in H. }
  split; [done|]. split.
  - unfold __repr__. intros H. apply string_app_inv_head in H.
    apply string_app_inv_tail in H. by apply Hstr.
  - by rewrite str_digits, length_string_of_list, length_fmap, length_rev.
Qed.

Lemma str_injective_witness :
  digit_cells [0; 1] /\ digit_cells [0; 1] /\
  (__str__ [0; 1] = __str__ [0; 1] -> [0; 1] = [0; 1]) /\
  String.length (__str__ [0; 1]) = length [0; 1].
Proof.
  assert (Hx : digit_cells [0; 1]) by (repeat constructor; lia).
  split; [done|]. split; [done|].
  destruct (str_injective [0; 1] [0; 1] Hx Hx) as (H1 & _ & H2). by split.
Defined.

(** ** [add_at] at a negative index *)

(** A negative index counts from the end of the store.  The carry moves to
    [idx + 1] all the same, so it climbs to index [-1] and then goes on at
    index 0, the least significant cell: what leaves the top of the store
    comes back in at the bottom. *)










(** ** The concrete scenarios of the specification *)

Example max_product_1234_5678 :
  calc_max_product [4; 3; 2; 1] [8; 7; 6; 5]
  = ret ([4; 3; 2; 5], [8; 7; 6; 1], [2; 5; 6; 2; 8; 7; 8]).
Proof. vm_compute. reflexivity. Qed.

Example brute_1234_5678 :
  calc_extreme_products_brute [4; 3; 2; 1] [8; 7; 6; 5] 0
  = ret ([4; 3; 2; 1], [8; 7; 6; 5],
         Extremes [4; 3; 2; 5] [8; 7; 6; 1] [2; 5; 6; 2; 8; 7; 8]
                  [4; 3; 2; 1] [8; 7; 6; 5] [2; 5; 6; 6; 0; 0; 7]).
Proof. vm_compute. reflexivity. Qed.

Example products_11_11 :
  calc_max_product [1; 1] [1; 1] = ret ([1; 1], [1; 1], [1; 2; 1]) /\
  calc_min_product [1; 1] [1; 1] = ret ([1; 1], [1; 1], [1; 2; 1]).
Proof. split; vm_compute; reflexivity. Qed.

Example zero_is_empty :
  __init__ floor_log10 (fun _ _ _ => 1) (Some 0) None = ret [] /\
  __str__ [] = EmptyString /\ __int__ [] = ret 0.
Proof. repeat split. Qed.

Example carry_chain : add_at [9; 9; 9] 0 1 = ret [0; 0; 0; 1].
Proof. vm_compute. reflexivity. Qed.

Example carry_from_a_negative_index : add_at [9; 9] (-1) 1 = ret [0; 1].
Proof. vm_compute. reflexivity. Qed.
